(** * LiveTube: the fallback resolution pipeline of [main.ts]

    A shallow embedding of the request handlers of [main.ts] (and of the
    [/clear-cache] handler of its earlier revision), with the platform
    (URL parsing, [fetch], the Innertube session, the clock) as an explicit
    [World] of oracles and the two process-wide caches as explicit state. *)

From Stdlib Require Import ZArith Ascii String List Lia Bool.
From stdpp Require Import base option list strings gmap.

Import ListNotations.
Local Open Scope string_scope.
Local Open Scope Z_scope.

(** ** JavaScript strings *)

Module JS.

(** [s.split(sep)] for a one-character separator: the pieces between the
    occurrences of [sep]; never the empty list. *)
Fixpoint split (sep : ascii) (s : string) : list string :=
  match s with
  | EmptyString => [EmptyString]
  | String a s' =>
      if Ascii.eqb a sep then EmptyString :: split sep s'
      else match split sep s' with
           | p :: ps => String a p :: ps
           | [] => [String a EmptyString]
           end
  end.

(** [parts.join(sep)] *)
Fixpoint join (sep : string) (parts : list string) : string :=
  match parts with
  | [] => EmptyString
  | [p] => p
  | p :: ps => p ++ sep ++ join sep ps
  end.

(** [s.startsWith(p)] *)
Fixpoint startsWith (p s : string) : bool :=
  match p, s with
  | EmptyString, _ => true
  | String a p', String b s' => Ascii.eqb a b && startsWith p' s'
  | String _ _, EmptyString => false
  end.

(** [s.includes(p)] *)
Fixpoint includes (p s : string) : bool :=
  startsWith p s ||
  match s with
  | EmptyString => false
  | String _ s' => includes p s'
  end.

(** Truthiness of a [string | undefined]: [undefined] and the empty string
    are falsy. *)
Definition truthy (o : option string) : bool :=
  match o with
  | Some (String _ _) => true
  | _ => false
  end.

(** [a || b] on a [string | undefined] with a string default. *)
Definition or_default (o : option string) (d : string) : string :=
  match o with
  | Some (String a s) => String a s
  | _ => d
  end.

End JS.

(** ** Candidates *)

(** [allowedParams = ["v", "c", "x"]] *)
Inductive ParamType := v | c | x.

(** [type T_Params = { type, value }] *)
Record T_Params := mkParam { type : ParamType; value : string }.

Definition allowedParams : list string := ["v"; "c"; "x"].

(** [allowedParams.includes(key)], with the cast [key as T_Params["type"]]. *)
Definition param_type (key : string) : option ParamType :=
  if String.eqb key "v" then Some v
  else if String.eqb key "c" then Some c
  else if String.eqb key "x" then Some x
  else None.

(** [params[params.length - 1].value += `&${key}=${value}`] *)
Fixpoint append_to_last (params : list T_Params) (suffix : string)
  : list T_Params :=
  match params with
  | [] => []
  | [p] => [mkParam (type p) (value p ++ suffix)]
  | p :: ps => p :: append_to_last ps suffix
  end.

(** One iteration of the loop over [url.searchParams.entries()]. *)
Definition parse_step (params : list T_Params) (kv : string * string)
  : list T_Params :=
  let '(key, val) := kv in
  match param_type key with
  | Some t => params ++ [mkParam t val]
  | None =>
      if (0 <? Z.of_nat (length params))
      then append_to_last params ("&" ++ key ++ "=" ++ val)
      else params
  end.

(** The candidate parsing loop of the [/] handler. *)
Definition parse_params (entries : list (string * string)) : list T_Params :=
  fold_left parse_step entries [].

(** ** The platform *)

Inductive Method := HEAD | GET.

(** A settled promise, or the completion of a call: a value or an exception. *)
Inductive Outcome (A : Type) := Returns (a : A) | Throws.
Arguments Returns {A} a.
Arguments Throws {A}.

(** What [fetch] settles to: a response with its status code, or a rejection
    (a transport-level failure). *)
Inductive FetchResult := Responds (status : Z) | Rejects.

(** A parsed [URL] object, as far as [validateStream] looks into it: its
    [searchParams] entries, and whatever else the platform's parser kept. *)
Record URL := mkURL {
  base : string;
  searchParams : list (string * string);
  hash : string
}.

(** [urlObj.searchParams.get(name)]: the first value of that name. *)
Fixpoint searchParams_get (name : string) (sp : list (string * string))
  : option string :=
  match sp with
  | [] => None
  | (k, val) :: sp' =>
      if String.eqb k name then Some val else searchParams_get name sp'
  end.

(** [urlObj.searchParams.delete(name)]: removes every entry of that name. *)
Fixpoint searchParams_delete (name : string) (sp : list (string * string))
  : list (string * string) :=
  match sp with
  | [] => []
  | (k, val) :: sp' =>
      if String.eqb k name then searchParams_delete name sp'
      else (k, val) :: searchParams_delete name sp'
  end.

(** The observable interaction of the process with the outside, in order.
    [Dispatched] marks an entry into [getHslStream]; the others are the
    upstream calls with what they settled to. *)
Inductive Event :=
| Dispatched (param : T_Params)
| Fetched (m : Method) (url : string) (headers : gmap string string)
          (r : FetchResult)
| GotInfo (vid : string) (r : Outcome (option string))
| ResolvedURL (url : string) (r : Outcome (option string)).

(** The outside world. Every oracle that stands for a network call or for the
    clock sees the interaction so far, so the world may answer the same
    question differently each time it is asked. The clock is read off the
    interaction: within one run of a handler it moves with the events only.
    Between one call and a later one anything may have happened and any time
    may have passed, so what is said of a later call is said for every later
    state of the process. *)
Record World := mkWorld {
  (** [Date.now()], in milliseconds *)
  now : list Event -> Z;
  (** [new URL(url)]; [None] when it throws *)
  new_URL : string -> option URL;
  (** [urlObj.toString()] *)
  URL_toString : URL -> string;
  (** [fetch(url, { method, headers })] *)
  fetch : list Event -> Method -> string -> gmap string string -> FetchResult;
  (** [(await session.getInfo(vid))?.streaming_data?.hls_manifest_url] *)
  session_getInfo : list Event -> string -> Outcome (option string);
  (** [(await session.resolveURL(url))?.payload?.videoId] *)
  session_resolveURL : list Event -> string -> Outcome (option string);
  (** [Deno.memoryUsage()], each figure already passed through [format] *)
  memoryUsage : list Event -> list (string * string)
}.

(** The environment variables [main.ts] reads for the pipeline, after
    [Number(... || default)] and taken to be whole numbers, and the
    generated user agent. *)
Record Config := mkConfig {
  STREAM_VALIDATION_CACHE_TTL : Z;
  VIDEO_INFO_CACHE_SIZE : Z;
  CUSTOM_X_HEADER : option string;
  USER_AGENT : string
}.

(** [MINUTE] of [@std/datetime]: milliseconds in a minute. *)
Definition MINUTE : Z := 60000.

(** ** Caches

    [main.ts] imports [memoize] and two [Map]-based cache classes from
    [@std/cache]; they are not part of the sources. *)

(** A JavaScript [Map] with string keys: entries in insertion order. *)
Module JSMap.
Section Ops.
Context {V : Type}.

Definition t := list (string * V).

Fixpoint get (k : string) (m : t) : option V :=
  match m with
  | [] => None
  | (k', val) :: m' => if String.eqb k' k then Some val else get k m'
  end.

Definition has (k : string) (m : t) : bool :=
  match get k m with Some _ => true | None => false end.

(** An existing key keeps its position; a new one goes last. *)
Fixpoint set (k : string) (val : V) (m : t) : t :=
  match m with
  | [] => [(k, val)]
  | (k', v') :: m' =>
      if String.eqb k' k then (k', val) :: m'
      else (k', v') :: set k val m'
  end.

Fixpoint delete (k : string) (m : t) : t :=
  match m with
  | [] => []
  | (k', v') :: m' =>
      if String.eqb k' k then m' else (k', v') :: delete k m'
  end.

Definition size (m : t) : Z := Z.of_nat (length m).
End Ops.
Arguments t V : clear implicits.
End JSMap.

(** The interface [memoize] asks of its cache ([MemoizationCache<K, V>]).
    Every operation is told the current time, and may reorder or drop
    entries. *)
Class MemoizationCache (C : Type) (V : Type) := {
  cache_has : Z -> string -> C -> bool * C;
  cache_get : Z -> string -> C -> option V * C;
  cache_set : Z -> string -> V -> C -> C;
  cache_delete : Z -> string -> C -> C;
  cache_size : Z -> C -> Z
}.

(** ** [LruCache] *)
Module LruCache.
Section Ops.
Context {V : Type}.

(** Modelled from the spec: the class [LruCache] of [@std/cache], which
    [main.ts] imports. "Entries evicted by least-recently-used order once a
    configured maximum entry count is exceeded; no time-based expiry";
    "accessing an entry refreshes its recency". It extends [Map]: the entries
    are kept least recently used first. *)
Record t := mk { maxSize : Z; entries : JSMap.t V }.

(** [new LruCache(maxSize)] *)
Definition new (maxSize : Z) : t := mk maxSize [].

(** Delete, then add again, so that the most recently used are last. *)
Definition setMostRecentlyUsed (k : string) (val : V) (c : t) : t :=
  mk (maxSize c) (JSMap.set k val (JSMap.delete k (entries c))).

(** Drops the first (least recently used) entry when over capacity. *)
Definition pruneToMaxSize (c : t) : t :=
  if maxSize c <? JSMap.size (entries c)
  then mk (maxSize c) (tl (entries c))
  else c.

Definition has (k : string) (c : t) : bool * t :=
  match JSMap.get k (entries c) with
  | Some val => (true, setMostRecentlyUsed k val c)
  | None => (false, c)
  end.

Definition get (k : string) (c : t) : option V * t :=
  match JSMap.get k (entries c) with
  | Some val => (Some val, setMostRecentlyUsed k val c)
  | None => (None, c)
  end.

Definition set (k : string) (val : V) (c : t) : t :=
  pruneToMaxSize (setMostRecentlyUsed k val c).

Definition delete (k : string) (c : t) : t :=
  mk (maxSize c) (JSMap.delete k (entries c)).

Definition size (c : t) : Z := JSMap.size (entries c).

Definition clear (c : t) : t := mk (maxSize c) [].
End Ops.
Arguments t V : clear implicits.
End LruCache.

(** ** [TtlCache] *)
Module TtlCache.
Section Ops.
Context {V : Type}.

(** Modelled from the spec: the class [TtlCache] of [@std/cache], which
    [main.ts] imports. "Entries expire strictly by wall-clock age from
    insertion; size is unbounded except by expiry". It extends [Map] and
    arms a timer per entry; here every entry carries the time at which its
    timer deletes it, and every operation first lets the due timers run. *)
Record t := mk { defaultTtl : Z; entries : JSMap.t (V * Z) }.

(** [new TtlCache(defaultTtl)] *)
Definition new (defaultTtl : Z) : t := mk defaultTtl [].

Definition live (time : Z) (e : string * (V * Z)) : bool :=
  time <? snd (snd e).

(** The timers due at [time] have fired. *)
Definition expire (time : Z) (c : t) : t :=
  mk (defaultTtl c) (List.filter (live time) (entries c)).

Definition has (time : Z) (k : string) (c : t) : bool * t :=
  let c' := expire time c in (JSMap.has k (entries c'), c').

Definition get (time : Z) (k : string) (c : t) : option V * t :=
  let c' := expire time c in (fst <$> JSMap.get k (entries c'), c').

(** Stores the value and re-arms the key's timer. *)
Definition set (time : Z) (k : string) (val : V) (c : t) : t :=
  let c' := expire time c in
  mk (defaultTtl c) (JSMap.set k (val, time + defaultTtl c) (entries c')).

Definition delete (time : Z) (k : string) (c : t) : t :=
  let c' := expire time c in
  mk (defaultTtl c) (JSMap.delete k (entries c')).

Definition size (time : Z) (c : t) : Z :=
  JSMap.size (entries (expire time c)).

Definition clear (c : t) : t := mk (defaultTtl c) [].
End Ops.
Arguments t V : clear implicits.
End TtlCache.

#[global] Instance JSMap_cache {V} : MemoizationCache (JSMap.t V) V := {|
  cache_has _ k m := (JSMap.has k m, m);
  cache_get _ k m := (JSMap.get k m, m);
  cache_set _ k val m := JSMap.set k val m;
  cache_delete _ k m := JSMap.delete k m;
  cache_size _ m := JSMap.size m
|}.

#[global] Instance LruCache_cache {V} : MemoizationCache (LruCache.t V) V := {|
  cache_has _ k c := LruCache.has k c;
  cache_get _ k c := LruCache.get k c;
  cache_set _ k val c := LruCache.set k val c;
  cache_delete _ k c := LruCache.delete k c;
  cache_size _ c := LruCache.size c
|}.

#[global] Instance TtlCache_cache {V} : MemoizationCache (TtlCache.t V) V := {|
  cache_has := TtlCache.has;
  cache_get := TtlCache.get;
  cache_set := TtlCache.set;
  cache_delete := TtlCache.delete;
  cache_size := TtlCache.size
|}.


(** ** Process state *)

(** What a cache holds for a key: the promise the memoized function returned,
    here by what it settles to. *)
Definition Cached := Outcome (option string).

Record State := mkState {
  (** [new LruCache(STREAM_VALIDATION_CACHE_TTL * MINUTE)] *)
  STREAM_VALIDATION_CACHE : LruCache.t Cached;
  (** [new TtlCache(VIDEO_INFO_CACHE_SIZE * MINUTE)] *)
  VIDEO_INFO_CACHE : TtlCache.t Cached;
  (** the [new Map()] each [memoize] falls back to when given
      [cache: undefined] *)
  validateStream_Map : JSMap.t Cached;
  getVideoInfo_Map : JSMap.t Cached;
  getVideoId_Map : JSMap.t Cached;
  (** the interaction so far *)
  trace : list Event
}.

(** Where a [memoize] keeps its cache inside the process state. *)
Record Slot (C : Type) := mkSlot {
  peek : State -> C;
  poke : C -> State -> State
}.
Arguments peek {C} _ _.
Arguments poke {C} _ _ _.

Definition STREAM_VALIDATION_CACHE_slot : Slot (LruCache.t Cached) :=
  mkSlot _ STREAM_VALIDATION_CACHE
    (fun cache st => mkState cache (VIDEO_INFO_CACHE st)
       (validateStream_Map st) (getVideoInfo_Map st) (getVideoId_Map st)
       (trace st)).

Definition VIDEO_INFO_CACHE_slot : Slot (TtlCache.t Cached) :=
  mkSlot _ VIDEO_INFO_CACHE
    (fun cache st => mkState (STREAM_VALIDATION_CACHE st) cache
       (validateStream_Map st) (getVideoInfo_Map st) (getVideoId_Map st)
       (trace st)).

Definition validateStream_Map_slot : Slot (JSMap.t Cached) :=
  mkSlot _ validateStream_Map
    (fun cache st => mkState (STREAM_VALIDATION_CACHE st) (VIDEO_INFO_CACHE st)
       cache (getVideoInfo_Map st) (getVideoId_Map st) (trace st)).

Definition getVideoInfo_Map_slot : Slot (JSMap.t Cached) :=
  mkSlot _ getVideoInfo_Map
    (fun cache st => mkState (STREAM_VALIDATION_CACHE st) (VIDEO_INFO_CACHE st)
       (validateStream_Map st) cache (getVideoId_Map st) (trace st)).

Definition getVideoId_Map_slot : Slot (JSMap.t Cached) :=
  mkSlot _ getVideoId_Map
    (fun cache st => mkState (STREAM_VALIDATION_CACHE st) (VIDEO_INFO_CACHE st)
       (validateStream_Map st) (getVideoInfo_Map st) cache (trace st)).

(** Appends an event to the interaction. *)
Definition record_event (e : Event) (st : State) : State :=
  mkState (STREAM_VALIDATION_CACHE st) (VIDEO_INFO_CACHE st)
    (validateStream_Map st) (getVideoInfo_Map st) (getVideoId_Map st)
    (trace st ++ [e]).

(** The process state when the module has been loaded. *)
Definition initial_state (cfg : Config) : State :=
  mkState (LruCache.new (STREAM_VALIDATION_CACHE_TTL cfg * MINUTE))
          (TtlCache.new (VIDEO_INFO_CACHE_SIZE cfg * MINUTE))
          [] [] [] [].

(** [USE_CACHE = !!(STREAM_VALIDATION_CACHE_TTL || VIDEO_INFO_CACHE_SIZE)] *)
Definition USE_CACHE (cfg : Config) : bool :=
  negb (STREAM_VALIDATION_CACHE_TTL cfg =? 0)
  || negb (VIDEO_INFO_CACHE_SIZE cfg =? 0).

(** ** Computations: state passing with exceptions *)

Definition M (A : Type) : Type := State -> Outcome A * State.

Definition ret {A} (a : A) : M A := fun st => (Returns a, st).

Definition throw {A} : M A := fun st => (Throws, st).

Definition bind {A B} (m : M A) (k : A -> M B) : M B :=
  fun st =>
    match m st with
    | (Returns a, st') => k a st'
    | (Throws, st') => (Throws, st')
    end.

(** [try { body } catch (error) { handler }], and [promise.catch(handler)] *)
Definition try_catch {A} (body handler : M A) : M A :=
  fun st =>
    match body st with
    | (Returns a, st') => (Returns a, st')
    | (Throws, st') => handler st'
    end.

Notation "'let*' x ':=' m 'in' k" := (bind m (fun x => k))
  (at level 10, x name, m at level 100, k at level 200).

(** Modelled from the spec: [memoize] of [@std/cache], which [main.ts]
    imports. "If a live entry exists (not expired / not evicted), return it
    without invoking [f]. Otherwise invoke [f(key)] exactly once, store the
    resulting future immediately (before it resolves) [...] and return it."
    Within one request the caller awaits the promise at once, so the entry is
    written here when [fn] has settled, but with the time of the call; a
    promise that rejects takes its entry out again. *)
Definition memoize {C} `{MemoizationCache C Cached} (w : World)
    (fn : string -> M (option string)) (cache : Slot C)
    (getKey : string -> string) (arg : string) : M (option string) :=
  fun st =>
    let key := getKey arg in
    let time := now w (trace st) in
    let '(found, c1) := cache_has time key (peek cache st) in
    if found then
      let '(result, c2) := cache_get time key c1 in
      match result with
      | Some promise => (promise, poke cache c2 st)
      | None => (Throws, poke cache c2 st)
      end
    else
      let '(settled, st') := fn arg (poke cache c1 st) in
      let c2 := cache_set time key settled (peek cache st') in
      match settled with
      | Returns _ => (settled, poke cache c2 st')
      | Throws =>
          (settled, poke cache (cache_delete (now w (trace st')) key c2) st')
      end.

(** ** The pipeline of [main.ts] *)

Section Pipeline.

Variable w : World.
Variable cfg : Config.

(** [await fetch(url, { method, headers })] *)
Definition do_fetch (m : Method) (url : string) (headers : gmap string string)
  : M Z :=
  fun st =>
    let r := fetch w (trace st) m url headers in
    let st' := record_event (Fetched m url headers r) st in
    match r with
    | Responds status => (Returns status, st')
    | Rejects => (Throws, st')
    end.

(** [await session.getInfo(vid)], down to [hls_manifest_url] *)
Definition do_getInfo (vid : string) : M (option string) :=
  fun st =>
    let r := session_getInfo w (trace st) vid in
    (r, record_event (GotInfo vid r) st).

(** [await session.resolveURL(url)], down to [videoId] *)
Definition do_resolveURL (url : string) : M (option string) :=
  fun st =>
    let r := session_resolveURL w (trace st) url in
    (r, record_event (ResolvedURL url r) st).

(** The body of the [forEach] over the comma-separated pairs. *)
Definition add_custom_header (headers : gmap string string) (pair : string)
  : gmap string string :=
  match JS.split ":" pair with
  | key :: valueParts =>
      if JS.truthy (Some key) && (0 <? Z.of_nat (length valueParts))
      then <[key := JS.join ":" valueParts]> headers
      else headers
  | [] => headers
  end.

(** [customHeaders.split(",").forEach(...)] *)
Definition add_custom_headers (headers : gmap string string)
    (customHeaders : string) : gmap string string :=
  fold_left add_custom_header (JS.split "," customHeaders) headers.

(** [Deno.env.get("CUSTOM_X_HEADER") || "custom-header"] *)
Definition customHeaderKey : string :=
  JS.or_default (CUSTOM_X_HEADER cfg) "custom-header".

(** The headers [validateStream] sends for a parsed URL. *)
Definition request_headers (urlObj : URL) : gmap string string :=
  let headers := {[ "user-agent" := USER_AGENT cfg ]} in
  match searchParams_get customHeaderKey (searchParams urlObj) with
  | Some (String a s) => add_custom_headers headers (String a s)
  | _ => headers
  end.

(** The URL object after the reserved parameter has been taken out of it. *)
Definition clean_URL (urlObj : URL) : URL :=
  match searchParams_get customHeaderKey (searchParams urlObj) with
  | Some (String _ _) =>
      mkURL (base urlObj)
            (searchParams_delete customHeaderKey (searchParams urlObj))
            (hash urlObj)
  | _ => urlObj
  end.

(** The function [validateStream] memoizes. *)
Definition validateStream_fn (url : string) : M (option string) :=
  try_catch
    (match new_URL w url with
     | None => throw
     | Some urlObj =>
         let headers := request_headers urlObj in
         let cleanUrl := URL_toString w (clean_URL urlObj) in
         let* status :=
           try_catch (do_fetch HEAD cleanUrl headers)
                     (do_fetch GET cleanUrl headers) in
         if status <? 400 then ret (Some cleanUrl) else ret None
     end)
    (ret None).

Definition validateStream : string -> M (option string) :=
  if USE_CACHE cfg
  then memoize w validateStream_fn STREAM_VALIDATION_CACHE_slot
               (fun url => "stream:" ++ url)
  else memoize w validateStream_fn validateStream_Map_slot
               (fun url => "stream:" ++ url).

(** The function [getVideoInfo] memoizes. *)
Definition getVideoInfo_fn (vid : string) : M (option string) :=
  try_catch (do_getInfo vid) (ret None).

Definition getVideoInfo : string -> M (option string) :=
  if USE_CACHE cfg
  then memoize w getVideoInfo_fn VIDEO_INFO_CACHE_slot
               (fun vid => "video:" ++ vid)
  else memoize w getVideoInfo_fn getVideoInfo_Map_slot
               (fun vid => "video:" ++ vid).

(** The function [getVideoId] memoizes. *)
Definition getVideoId_fn (url : string) : M (option string) :=
  try_catch (do_resolveURL url) (ret None).

Definition getVideoId : string -> M (option string) :=
  if USE_CACHE cfg
  then memoize w getVideoId_fn VIDEO_INFO_CACHE_slot
               (fun url => "resolve:" ++ url)
  else memoize w getVideoId_fn getVideoId_Map_slot
               (fun url => "resolve:" ++ url).

(** The canonical live page of a channel handle. *)
Definition live_page (handle : string) : string :=
  "https://www.youtube.com/" ++ handle ++ "/live".

Definition getHslStream (param : T_Params) : M (option string) :=
  try_catch
    (fun st =>
       let st := record_event (Dispatched param) st in
       match type param with
       | x => validateStream (value param) st
       | v => getVideoInfo (value param) st
       | c =>
           (let* vid := getVideoId (live_page (value param)) in
            match vid with
            | Some (String a s) => getVideoInfo (String a s)
            | _ => ret None
            end) st
       end)
    (ret None).

(** What the [/] handler answers. *)
Inductive Response :=
| ServerRunning (memory : list (string * string))
                (cache : option (Z * Z * Z))
| Redirect (location : string)
| NoValidStream.

Definition status_code (r : Response) : Z :=
  match r with
  | ServerRunning _ _ => 200
  | Redirect _ => 302
  | NoValidStream => 404
  end.

(** The loop over the candidates, and the answer when it runs out. *)
Fixpoint first_stream (params : list T_Params) : M Response :=
  match params with
  | [] => ret NoValidStream
  | param :: rest =>
      let* streamUrl := getHslStream param in
      match streamUrl with
      | Some (String a s) => ret (Redirect (String a s))
      | _ => first_stream rest
      end
  end.

(** The answer for a request without candidates. *)
Definition server_running : M Response :=
  fun st =>
    let time := now w (trace st) in
    let streamValidation := cache_size time (STREAM_VALIDATION_CACHE st) in
    let videoInfo := cache_size time (VIDEO_INFO_CACHE st) in
    (Returns
       (ServerRunning (memoryUsage w (trace st))
          (if USE_CACHE cfg
           then Some (streamValidation, videoInfo,
                      streamValidation + videoInfo)
           else None)),
     st).

(** The [/] handler, from the entries of the request's query string. *)
Definition main_endpoint (entries : list (string * string)) : M Response :=
  let params := parse_params entries in
  if Z.of_nat (length params) =? 0 then server_running
  else first_stream params.

End Pipeline.

(** ** Reading traces *)

(** The candidates a stretch of interaction dispatched, in order. *)
Definition dispatched (evs : list Event) : list T_Params :=
  omap (fun e => match e with Dispatched p => Some p | _ => None end) evs.

(** An upstream call that ended in an exception nothing retries: a rejected
    [GET] probe, or a throwing session call. (A rejected [HEAD] probe is
    retried as [GET].) *)
Definition is_failure (e : Event) : bool :=
  match e with
  | Fetched GET _ _ Rejects => true
  | GotInfo _ Throws => true
  | ResolvedURL _ Throws => true
  | _ => false
  end.

(** An exception downgraded to absence. *)
Definition or_absent (o : Outcome (option string)) : option string :=
  match o with
  | Returns r => r
  | Throws => None
  end.

(** What a memoized call may leave behind: no dispatch, and no failure unless
    its result is absent. *)
Definition quiet (o : Outcome (option string)) (evs : list Event) : Prop :=
  dispatched evs = []
  /\ (Exists (fun e => is_failure e = true) evs -> or_absent o = None).

(** A call of [session.getInfo]. *)
Definition is_manifest_fetch (e : Event) : bool :=
  match e with GotInfo _ _ => true | _ => false end.

(** The probes of a stretch of interaction: method, URL, headers. *)
Definition probes (evs : list Event)
  : list (Method * string * gmap string string) :=
  omap (fun e => match e with
                 | Fetched m url headers _ => Some (m, url, headers)
                 | _ => None
                 end) evs.

(** [absent_run w cfg params st st']: dispatched one after the other from
    [st], every candidate of [params] comes back absent (falsy), and the
    process is left in [st']. *)
Inductive absent_run (w : World) (cfg : Config)
  : list T_Params -> State -> State -> Prop :=
| absent_nil st : absent_run w cfg [] st st
| absent_cons param rest st r st1 st2 :
    getHslStream w cfg param st = (Returns r, st1) ->
    JS.truthy r = false ->
    absent_run w cfg rest st1 st2 ->
    absent_run w cfg (param :: rest) st st2.

(** Appends a stretch of interaction. *)
Definition record_events (evs : list Event) (st : State) : State :=
  mkState (STREAM_VALIDATION_CACHE st) (VIDEO_INFO_CACHE st)
    (validateStream_Map st) (getVideoInfo_Map st) (getVideoId_Map st)
    (trace st ++ evs).

(** A slot that is a field of the state, apart from the trace. *)
Record lawful_slot {C} (s : Slot C) : Prop := mkLawful {
  slot_trace cache st : trace (poke s cache st) = trace st;
  slot_peek_poke cache st : peek s (poke s cache st) = cache;
  slot_poke_poke cache cache' st :
    poke s cache' (poke s cache st) = poke s cache' st;
  slot_peek_record evs st : peek s (record_events evs st) = peek s st;
  slot_poke_record evs cache st :
    poke s cache (record_events evs st) = record_events evs (poke s cache st)
}.

(** One call of [session.getInfo] for [vid], after the interaction [tr]:
    what it leaves in the trace, and the result with an exception downgraded
    to absence. *)
Definition manifest_lookup (w : World) (vid : string) (tr : list Event)
    (r : option string) (evs : list Event) : Prop :=
  let o := session_getInfo w tr vid in
  evs = [GotInfo vid o] /\ r = or_absent o.

(** One call of [session.resolveURL] for [url], likewise. *)
Definition id_lookup (w : World) (url : string) (tr : list Event)
    (r : option string) (evs : list Event) : Prop :=
  let o := session_resolveURL w tr url in
  evs = [ResolvedURL url o] /\ r = or_absent o.

(** One validation of [url], likewise: no probe when the URL does not parse,
    else a [HEAD] probe, and a [GET] probe when that one is rejected. *)
Definition validation (w : World) (cfg : Config) (url : string)
    (tr : list Event) (r : option string) (evs : list Event) : Prop :=
  match new_URL w url with
  | None => evs = [] /\ r = None
  | Some urlObj =>
      let headers := request_headers cfg urlObj in
      let cleanUrl := URL_toString w (clean_URL cfg urlObj) in
      let head := Fetched HEAD cleanUrl headers in
      let get := Fetched GET cleanUrl headers in
      match fetch w tr HEAD cleanUrl headers with
      | Responds status =>
          evs = [head (Responds status)]
          /\ r = (if status <? 400 then Some cleanUrl else None)
      | Rejects =>
          match fetch w (tr ++ [head Rejects]) GET cleanUrl headers with
          | Responds status =>
              evs = [head Rejects; get (Responds status)]
              /\ r = (if status <? 400 then Some cleanUrl else None)
          | Rejects => evs = [head Rejects; get Rejects] /\ r = None
          end
      end
  end.

(** ** The candidate parser, in the words of its specification *)

(** "If a pair's key belongs to the recognized set, append a new Candidate
    with that kind and value. If the key is unrecognized AND at least one
    Candidate already exists, [...] append [&key=value] to its value. If the
    key is unrecognized and no Candidate exists yet, discard it silently." *)
Inductive parses : list (string * string) -> list T_Params -> Prop :=
| parses_nil : parses [] []
| parses_recognized entries params key val t :
    parses entries params ->
    param_type key = Some t ->
    parses (entries ++ [(key, val)]) (params ++ [mkParam t val])
| parses_continuation entries params last key val :
    parses entries (params ++ [last]) ->
    param_type key = None ->
    parses (entries ++ [(key, val)])
           (params ++ [mkParam (type last)
                               (value last ++ "&" ++ key ++ "=" ++ val)])
| parses_discard entries key val :
    parses entries [] ->
    param_type key = None ->
    parses (entries ++ [(key, val)]) [].

(** ** Custom header instructions *)

(** [name:value,name2:value2] *)
Definition header_instructions (pairs : list (string * string)) : string :=
  JS.join "," (map (fun nv => fst nv ++ ":" ++ snd nv) pairs).

(** The character does not occur in the string. *)
Fixpoint free_of (a : ascii) (s : string) : Prop :=
  match s with
  | EmptyString => True
  | String b s' => a <> b /\ free_of a s'
  end.

(** A well-formed instruction: a non-empty name without [:] or [,], and a
    value without [,]. *)
Definition well_formed_pair (nv : string * string) : Prop :=
  fst nv <> "" /\ free_of ":" (fst nv) /\ free_of "," (fst nv)
  /\ free_of "," (snd nv).

(** [headers[name] = value] for each pair in turn. *)
Definition with_headers (headers : gmap string string)
    (pairs : list (string * string)) : gmap string string :=
  fold_left (fun h nv => <[fst nv := snd nv]> h) pairs headers.

(** ** The earlier revision of [main.ts]: one cache, and [/clear-cache]

    In that revision both memoized functions share [TTL_CACHE], a [TtlCache]
    of [CACHE_TTL] minutes, and the handlers check the API key themselves. *)

Module Part000.

(** What the handlers read of a request. *)
Record Request := mkRequest {
  Authorization : option string;
  User_Agent : option string;
  query : list (string * string)
}.

(** [c.json({ success, message, error }, status)] *)
Record Json := mkJson {
  status : Z;
  success : bool;
  message : option string;
  error : option string
}.

(** [header === expected], on a header that may be missing *)
Definition header_is (header : option string) (expected : string) : bool :=
  match header with
  | Some h => String.eqb h expected
  | None => false
  end.

(** [header?.includes(needle)], as a condition *)
Definition header_includes (header : option string) (needle : string)
  : bool :=
  match header with
  | Some h => JS.includes needle h
  | None => false
  end.

(** [hasAccess] of the [/] handler. *)
Definition hasAccess (API_KEY : option string) (req : Request) : bool :=
  match API_KEY with
  | Some (String a s) =>
      header_is (Authorization req) ("Bearer " ++ String a s)
      || header_includes (User_Agent req) (String a s)
  | _ => true
  end.

(** [hasAccess] of the [/clear-cache] handler. *)
Definition hasAccess_clear (API_KEY : option string) (req : Request)
  : bool :=
  match API_KEY with
  | Some (String a s) =>
      header_is (Authorization req) ("Bearer " ++ String a s ++ "X")
      || header_includes (User_Agent req) (String a s ++ "X")
  | _ => true
  end.

Definition unauthorized : Json :=
  mkJson 401 false None (Some "Unauthorized. Missing API key!").

Definition cache_cleared : Json :=
  mkJson 200 true (Some "Cache cleared!") None.

Definition nothing_to_clear : Json :=
  mkJson 200 true None (Some "Nothing to clear. Cache is empty!").

Definition server_running : Json :=
  mkJson 200 true (Some "Server running!") None.

(** The [/clear-cache] handler, run at [time] on [TTL_CACHE]. *)
Definition clear_cache {V} (API_KEY : option string) (req : Request)
    (time : Z) (TTL_CACHE : TtlCache.t V) : Json * TtlCache.t V :=
  if negb (hasAccess_clear API_KEY req) then (unauthorized, TTL_CACHE)
  else if negb (TtlCache.size time TTL_CACHE =? 0)
       then (cache_cleared, TtlCache.clear TTL_CACHE)
       else (nothing_to_clear, TtlCache.expire time TTL_CACHE).

(** The [/] handler up to its loop over the candidates: the answer it gives
    before the loop, if any. *)
Definition main_endpoint_early (API_KEY : option string) (req : Request)
  : option Json :=
  if negb (hasAccess API_KEY req) then Some unauthorized
  else if Z.of_nat (length (parse_params (query req))) =? 0
       then Some server_running
       else None.

(** [const USE_CACHE = CACHE_TTL > 0] *)
Definition USE_CACHE (CACHE_TTL : Z) : bool := 0 <? CACHE_TTL.

(** [TTL_CACHE], kept in the process state where the later revision keeps
    its [TtlCache]. *)
Definition TTL_CACHE : Slot (TtlCache.t Cached) := VIDEO_INFO_CACHE_slot.

(** The process state when the module has been loaded: [TTL_CACHE] is
    [new TtlCache(CACHE_TTL * MINUTE)]. The [LruCache] of the later revision
    has no part in this one. *)
Definition initial_state (CACHE_TTL : Z) : State :=
  mkState (LruCache.new 0) (TtlCache.new (CACHE_TTL * MINUTE)) [] [] [] [].

(** [getVideoInfo]:
    [memoize(fn, { cache: USE_CACHE ? TTL_CACHE : undefined })] around the
    function the later revision has. No [getKey] is given: the keys are the
    ones [memoize] makes of the argument by itself, whatever they are. *)
Definition getVideoInfo (w : World) (CACHE_TTL : Z)
    (getKey : string -> string) : string -> M (option string) :=
  if USE_CACHE CACHE_TTL
  then memoize w (getVideoInfo_fn w) TTL_CACHE getKey
  else memoize w (getVideoInfo_fn w) getVideoInfo_Map_slot getKey.

(** The [/clear-cache] handler in the process. *)
Definition clear_cache_endpoint (w : World) (API_KEY : option string)
    (req : Request) : M Json :=
  fun st =>
    let '(answer, cache) :=
      clear_cache API_KEY req (now w (trace st)) (peek TTL_CACHE st) in
    (Returns answer, poke TTL_CACHE cache st).

End Part000.

(** ** Callers that overlap: one memoized function under the event loop

    Each call of the memoized function runs to completion before anything
    else does, and hands back a promise; promises settle later, between
    calls. *)

Module EventLoop.

Section Memoized.

Context {C : Type} `{MemoizationCache C nat}.

Variable getKey : string -> string.

(** The cache (of promises, by number), the promises made so far, each with
    its key and with what it has settled to if it has, and the arguments [fn]
    has been invoked on. *)
Record Loop := mkLoop {
  cache : C;
  promises : list (string * option Cached);
  invocations : list string
}.

(** Modelled from the spec: [memoize] of [@std/cache], one call of the
    memoized function at [time]. "If a live entry exists, return it without
    invoking [f]. Otherwise invoke [f(key)] exactly once, store the resulting
    future immediately (before it resolves) so concurrent callers with the
    same key share it, and return it." [None] stands for an exception. *)
Definition call (time : Z) (arg : string) (l : Loop) : option nat * Loop :=
  let key := getKey arg in
  let '(found, c1) := cache_has time key (cache l) in
  if found then
    let '(result, c2) := cache_get time key c1 in
    (result, mkLoop c2 (promises l) (invocations l))
  else
    let promise := length (promises l) in
    (Some promise,
     mkLoop (cache_set time key promise c1)
            (promises l ++ [(key, None)])
            (invocations l ++ [arg])).

(** Callers arriving one after the other, at the given times. *)
Fixpoint calls (times : list Z) (arg : string) (l : Loop)
  : list (option nat) * Loop :=
  match times with
  | [] => ([], l)
  | time :: later =>
      let '(promise, l1) := call time arg l in
      let '(others, l2) := calls later arg l1 in
      (promise :: others, l2)
  end.

(** A pending promise settles at [time]; a rejection takes its entry out of
    the cache. *)
Definition settle (time : Z) (promise : nat) (o : Cached) (l : Loop)
  : Loop :=
  match promises l !! promise with
  | Some (key, None) =>
      mkLoop (match o with
              | Returns _ => cache l
              | Throws => cache_delete time key (cache l)
              end)
             (<[promise := (key, Some o)]> (promises l))
             (invocations l)
  | _ => l
  end.

(** What a caller holding [promise] gets once it has settled. *)
Definition awaited (promise : option nat) (l : Loop) : option Cached :=
  match promise with
  | Some p =>
      match promises l !! p with
      | Some (_, settled) => settled
      | None => None
      end
  | None => Some Throws
  end.

End Memoized.

Arguments Loop C : clear implicits.

(** A fresh process: nothing cached, nothing called. *)
Definition start {C} (cache : C) : Loop C := mkLoop cache [] [].

(** Callers at [first] and at the [later] times, all asking for [arg]
    against the fresh [cache], share one promise: [fn] is invoked once, every
    caller holds promise 0, and whatever that promise settles to is what
    every caller gets. *)
Definition share_one_call {C} `{MemoizationCache C nat} (cache : C)
    (getKey : string -> string) (first : Z) (later : list Z) (arg : string)
  : Prop :=
  let '(held, l) := calls getKey (first :: later) arg (start cache) in
  held = repeat (Some 0%nat) (S (length later))
  /\ invocations l = [arg]
  /\ forall time o,
       Forall (fun promise => awaited promise (settle time 0 o l) = Some o)
              held.

End EventLoop.

(** ** A world to run the pipeline in *)

Module Sample.

(** [key=value], split at the first [=]. *)
Definition entry_of (pair : string) : string * string :=
  match JS.split "=" pair with
  | key :: valueParts => (key, JS.join "=" valueParts)
  | [] => (pair, "")
  end.

(** A URL parser for [http...] URLs without fragment, without decoding. *)
Definition parse (url : string) : option URL :=
  if JS.startsWith "http" url then
    match JS.split "?" url with
    | [b] => Some (mkURL b [] "")
    | b :: q =>
        Some (mkURL b (map entry_of (JS.split "&" (JS.join "?" q))) "")
    | [] => None
    end
  else None.

Definition print (u : URL) : string :=
  base u ++
  match searchParams u with
  | [] => ""
  | sp => "?" ++ JS.join "&" (map (fun kv => fst kv ++ "=" ++ snd kv) sp)
  end ++ hash u.

(** Hosts named [down] refuse every connection, hosts named [nohead] refuse
    [HEAD]; paths with [missing] answer 404, all others 200. *)
Definition probe (_ : list Event) (m : Method) (url : string)
    (_ : gmap string string) : FetchResult :=
  if JS.includes "down" url then Rejects
  else if JS.includes "nohead" url
          && match m with HEAD => true | GET => false end then Rejects
  else if JS.includes "missing" url then Responds 404
  else Responds 200.

Definition getInfo (_ : list Event) (vid : string)
  : Outcome (option string) :=
  if String.eqb vid "boom" then Throws
  else if String.eqb vid "abc" then Returns None
  else if String.eqb vid "blank" then Returns (Some "")
  else Returns (Some ("https://m.example/" ++ vid ++ ".m3u8")).

Definition resolveURL (_ : list Event) (url : string)
  : Outcome (option string) :=
  if JS.includes "@boom" url then Throws
  else if JS.includes "@x" url then Returns (Some "live")
  else Returns None.

(** A world in which [tick] milliseconds pass with every event. *)
Definition world (tick : Z) : World :=
  mkWorld (fun tr => tick * Z.of_nat (length tr))
          parse print probe getInfo resolveURL
          (fun _ => [("rss", "1 MB")]).

(** The defaults of [main.ts]. *)
Definition cfg : Config := mkConfig 30 100000 None "UA".

(** A world in which a second passes with every event, and one in which
    some 115 days do. *)
Definition w : World := world 1000.
Definition late : World := world 10000000000.

(** The fresh process under the defaults. *)
Definition st0 : State := initial_state cfg.

(** A direct URL with header instructions, as the parser reads it, and the
    same without them. *)
Definition smuggling : string := "http://h/p?custom-header=a:b:c,d:e&t=1".
Definition smuggling_URL : URL :=
  mkURL "http://h/p" [("custom-header", "a:b:c,d:e"); ("t", "1")] "".
Definition cleaned_URL : URL := mkURL "http://h/p" [("t", "1")] "".
Definition smuggled : list (string * string) := [("a", "b:c"); ("d", "e")].
Definition smuggled_headers : gmap string string :=
  <["d" := "e"]> (<["a" := "b:c"]> {[ "user-agent" := "UA" ]}).

(** Three candidates, of which the second resolves. *)
Definition candidates : list T_Params :=
  [mkParam v "abc"; mkParam c "@x"; mkParam x "http://u"].

(** Half an hour for both settings; no room for validations; and lookups
    kept for a minute. *)
Definition short : Config := mkConfig 30 30 None "UA".
Definition no_room : Config := mkConfig 0 100000 None "UA".
Definition one_minute : Config := mkConfig 30 1 None "UA".

End Sample.


(** ** More of [main.ts] and of its earlier revision *)

(** [verifyToken] of the bearer-auth middleware of [main.ts]: without an API
    key every token passes, with one the token has to contain it. *)
Definition verifyToken (API_KEY : option string) (token : string) : bool :=
  match API_KEY with
  | Some (String a s) => JS.includes (String a s) token
  | _ => true
  end.

(** What the parsing loop appends for a run of stray pairs:
    [&key=value] for each, in order. *)
Fixpoint fragments (extras : list (string * string)) : string :=
  match extras with
  | [] => ""
  | (key, val) :: rest => "&" ++ key ++ "=" ++ val ++ fragments rest
  end.

(** The upstream calls of a stretch of interaction: everything but the
    dispatch marks. *)
Definition is_upstream (e : Event) : bool :=
  match e with
  | Dispatched _ => false
  | _ => true
  end.

Definition upstream_calls (evs : list Event) : list Event :=
  List.filter is_upstream evs.

(** An item of the header instructions that sets no header: one without a
    colon, or with nothing before its first colon. *)
Definition malformed (item : string) : Prop :=
  free_of ":" item \/ exists rest, item = ":" ++ rest.

(** A [Map]-based store in good order: no key twice. *)
Definition unique_keys {V} (entries : JSMap.t V) : Prop :=
  NoDup (map fst entries).

(** An [LruCache] in good order: no key twice, and not over capacity. *)
Definition within_capacity {V} (cache : LruCache.t V) : Prop :=
  unique_keys (LruCache.entries cache)
  /\ LruCache.size cache <= LruCache.maxSize cache.

(** The validation store of a process within the capacity [maxSize]. *)
Definition bounded (maxSize : Z) (st : State) : Prop :=
  within_capacity (STREAM_VALIDATION_CACHE st)
  /\ LruCache.maxSize (STREAM_VALIDATION_CACHE st) = maxSize.

(** The longest delay a timer of the runtime holds, [2^31 - 1] milliseconds.
    A [TtlCache] arms one timer for each entry; up to this delay the timer
    fires when the entry's time is up, as the model of [TtlCache] has it. *)
Definition TIMEOUT_MAX : Z := 2147483647.

(** ** The stores of the event loop and of the pipeline

    Under the event loop a store holds promises; the pipeline, whose caller
    awaits at once, keeps what they settle to. The following read a store of
    promises with each promise [p] as the outcome [f p]. *)

Definition JSMap_outcomes (f : nat -> Cached) (m : JSMap.t nat)
  : JSMap.t Cached :=
  map (fun e => (fst e, f (snd e))) m.

Definition LruCache_outcomes (f : nat -> Cached) (cache : LruCache.t nat)
  : LruCache.t Cached :=
  LruCache.mk (LruCache.maxSize cache)
              (JSMap_outcomes f (LruCache.entries cache)).

Definition TtlCache_outcomes (f : nat -> Cached) (cache : TtlCache.t nat)
  : TtlCache.t Cached :=
  TtlCache.mk (TtlCache.defaultTtl cache)
              (map (fun e => (fst e, (f (fst (snd e)), snd (snd e))))
                   (TtlCache.entries cache)).

(** Callers of the memoized function [F] of the pipeline that overlap. The
    first calls [F] in the process [st], where [F] keeps its results in
    [store]; under the event loop that is one call against the store of
    promises [promised]: with the promise read as what [F] returns, the two
    stores are the same before the call and after it. The callers at the
    [later] times arrive before that promise has settled, and share it (see
    [share_one_call]). *)
Definition callers_share {C D} `{MemoizationCache C nat}
    (outcomes : (nat -> Cached) -> C -> D) (w : World)
    (F : string -> M (option string)) (store : State -> D) (promised : C)
    (getKey : string -> string) (st : State) (later : list Z) (arg : string)
  : Prop :=
  let first := now w (trace st) in
  let '(o, st1) := F arg st in
  let '(_, l1) :=
    EventLoop.call getKey first arg (EventLoop.start promised) in
  store st = outcomes (fun _ => o) promised
  /\ store st1 = outcomes (fun _ => o) (EventLoop.cache l1)
  /\ EventLoop.share_one_call promised getKey first later arg.
(** * Properties *)

Local Open Scope list_scope.

(** ** The candidate parser *)

Lemma parse_params_snoc entries kv :
  parse_params (entries ++ [kv]) = parse_step (parse_params entries) kv.
Proof. unfold parse_params. now rewrite fold_left_app. Qed.

Lemma append_to_last_snoc params last suffix :
  append_to_last (params ++ [last]) suffix
  = params ++ [mkParam (type last) (value last +:+ suffix)].
Proof.
  induction params as [|p ps IH]; [reflexivity|].
  cbn [app append_to_last]. rewrite IH.
  destruct (ps ++ [last]) eqn:E; [|reflexivity].
  now destruct ps.
Qed.

Lemma snoc_cases {A} (l : list A) : l = [] \/ exists l' a, l = l' ++ [a].
Proof.
  induction l as [|a l' _] using rev_ind; [now left|right; eauto].
Qed.

Lemma parse_step_continuation params last key val :
  param_type key = None ->
  parse_step (params ++ [last]) (key, val)
  = params ++ [mkParam (type last)
                       (value last +:+ "&" +:+ key +:+ "=" +:+ val)].
Proof.
  intros Ht. unfold parse_step. rewrite Ht, length_app, Nat.add_comm.
  cbn [length Nat.add].
  replace (0 <? Z.of_nat (S (length params))) with true
    by (symmetry; apply Z.ltb_lt; lia).
  apply append_to_last_snoc.
Qed.

Lemma parse_step_discard key val :
  param_type key = None -> parse_step [] (key, val) = [].
Proof. intros Ht. unfold parse_step. now rewrite Ht. Qed.

Lemma parse_step_recognized params key val t :
  param_type key = Some t ->
  parse_step params (key, val) = params ++ [mkParam t val].
Proof. intros Ht. unfold parse_step. now rewrite Ht. Qed.

Lemma parse_params_parses entries : parses entries (parse_params entries).
Proof.
  induction entries as [|[key val] entries IH] using rev_ind.
  - constructor.
  - rewrite parse_params_snoc.
    destruct (param_type key) as [t|] eqn:Ht.
    + rewrite (parse_step_recognized _ _ _ t Ht). now constructor.
    + destruct (snoc_cases (parse_params entries)) as [E|(ps & p & E)];
        rewrite E in *.
      * rewrite parse_step_discard by assumption. now constructor.
      * rewrite parse_step_continuation by assumption. now constructor.
Qed.

Lemma parses_functional entries params :
  parses entries params -> parse_params entries = params.
Proof.
  induction 1 as [|? ? ? ? ? _ IH Ht|? ? ? ? ? _ IH Ht|? ? ? _ IH Ht];
    [reflexivity|..]; rewrite parse_params_snoc, IH.
  - now apply parse_step_recognized.
  - now apply parse_step_continuation.
  - now apply parse_step_discard.
Qed.

Lemma param_type_allowed key :
  is_Some (param_type key) <-> In key allowedParams.
Proof.
  unfold param_type, allowedParams. cbn [In].
  destruct (String.eqb_spec key "v"), (String.eqb_spec key "c"),
    (String.eqb_spec key "x"); subst; split; intros Hx; eauto;
    try (destruct Hx as [? Hx]; discriminate Hx);
    try (destruct Hx as [Hx|[Hx|[Hx|[]]]]; congruence).
Qed.

Lemma parse_params_types entries :
  type <$> parse_params entries
  = omap (fun kv => param_type (fst kv)) entries.
Proof.
  induction entries as [|[key val] entries IH] using rev_ind;
    [reflexivity|].
  rewrite parse_params_snoc, omap_app. cbn -[parse_step].
  destruct (param_type key) as [t|] eqn:Ht.
  - rewrite (parse_step_recognized _ _ _ t Ht), fmap_app, IH. reflexivity.
  - rewrite app_nil_r, <- IH.
    destruct (snoc_cases (parse_params entries)) as [E|(ps & p & E)];
      rewrite E.
    + now rewrite parse_step_discard.
    + rewrite parse_step_continuation by assumption.
      now rewrite !fmap_app.
Qed.

(** C3. The candidate parser does what its specification says, pair by pair:
    a recognized key ([v], [c], [x]) appends a candidate, an unrecognized key
    appends [&key=value] to the last candidate, or is dropped when there is
    none; the candidates come in the order of the recognized keys; and the
    pairs [(v, abc), (x, http://u), (junk, 1)] give two candidates, the
    second with value [http://u&junk=1]. *)
Theorem parse_params_meets_spec :
  (forall key, is_Some (param_type key) <-> In key ["v"; "c"; "x"])
  /\ (forall entries params,
        parses entries params <-> parse_params entries = params)
  /\ (forall entries,
        type <$> parse_params entries
        = omap (fun kv => param_type (fst kv)) entries)
  /\ parse_params [("v", "abc"); ("x", "http://u"); ("junk", "1")]
     = [mkParam v "abc"; mkParam x "http://u&junk=1"].
Proof.
  split; [exact param_type_allowed|].
  split; [|split; [exact parse_params_types|reflexivity]].
  intros entries params. split; [apply parses_functional|].
  intros <-. apply parse_params_parses.
Qed.

(** ** JavaScript strings *)

Lemma append_nil_l s : "" +:+ s = s.
Proof. reflexivity. Qed.

Lemma append_cons a s t : String a s +:+ t = String a (s +:+ t).
Proof. reflexivity. Qed.

Lemma split_nonempty sep s : JS.split sep s <> [].
Proof.
  destruct s as [|a s]; cbn; [discriminate|].
  destruct (Ascii.eqb a sep); [discriminate|].
  destruct (JS.split sep s); discriminate.
Qed.

Lemma split_free sep s : free_of sep s -> JS.split sep s = [s].
Proof.
  induction s as [|a s IH]; [reflexivity|]. intros [Hne Hfree].
  cbn [JS.split].
  destruct (Ascii.eqb_spec a sep) as [->|_]; [congruence|].
  now rewrite (IH Hfree).
Qed.

Lemma split_app sep s1 s2 :
  free_of sep s1 ->
  JS.split sep (s1 +:+ String sep s2) = s1 :: JS.split sep s2.
Proof.
  induction s1 as [|a s1 IH];
    rewrite ?append_nil_l, ?append_cons; cbn [JS.split free_of].
  - intros _. now rewrite Ascii.eqb_refl.
  - intros [Hne Hfree].
    destruct (Ascii.eqb_spec a sep) as [->|_]; [congruence|].
    now rewrite (IH Hfree).
Qed.

Lemma join_split sep s : JS.join (String sep "") (JS.split sep s) = s.
Proof.
  induction s as [|a s IH]; [reflexivity|]. cbn [JS.split].
  destruct (Ascii.eqb_spec a sep) as [->|_].
  - pose proof (split_nonempty sep s) as Hne.
    destruct (JS.split sep s) as [|p ps]; [congruence|].
    cbn [JS.join]. cbn. now rewrite <- IH.
  - pose proof (split_nonempty sep s) as Hne.
    destruct (JS.split sep s) as [|p ps]; [congruence|].
    rewrite <- IH. destruct ps; reflexivity.
Qed.

Lemma free_of_app a s1 s2 :
  free_of a s1 -> free_of a s2 -> free_of a (s1 +:+ s2).
Proof.
  induction s1; rewrite ?append_nil_l, ?append_cons; cbn [free_of];
    intuition.
Qed.

(** ** Custom header instructions *)

Lemma split_header_instructions pairs :
  pairs <> [] ->
  Forall well_formed_pair pairs ->
  JS.split "," (header_instructions pairs)
  = map (fun nv => fst nv +:+ ":" +:+ snd nv) pairs.
Proof.
  unfold header_instructions.
  induction pairs as [|nv pairs IH]; [congruence|].
  intros _ Hwf. inversion_clear Hwf as [|? ? (_ & _ & Hn & Hv) Hrest].
  assert (Hfree : free_of "," (fst nv +:+ ":" +:+ snd nv)).
  { apply free_of_app; [assumption|]. cbn. split; [discriminate|assumption]. }
  destruct pairs as [|nv' pairs].
  - cbn [map JS.join]. now apply split_free.
  - cbn [map JS.join] in *.
    change ("," +:+ ?t) with (String "," t).
    rewrite split_app by assumption. f_equal. now apply IH.
Qed.

Lemma add_custom_header_pair headers nv :
  well_formed_pair nv ->
  add_custom_header headers (fst nv +:+ ":" +:+ snd nv)
  = <[fst nv := snd nv]> headers.
Proof.
  intros (Hne & Hcolon & _ & _). unfold add_custom_header.
  change (":" +:+ ?t) with (String ":" t).
  rewrite split_app by assumption.
  pose proof (split_nonempty ":" (snd nv)) as Hparts.
  pose proof (join_split ":" (snd nv)) as Hjoin.
  destruct (JS.split ":" (snd nv)) as [|p ps]; [congruence|].
  destruct (fst nv) as [|a n]; [congruence|].
  cbn [JS.truthy andb length]. rewrite Hjoin. reflexivity.
Qed.

Lemma add_custom_headers_pairs headers pairs :
  pairs <> [] ->
  Forall well_formed_pair pairs ->
  add_custom_headers headers (header_instructions pairs)
  = with_headers headers pairs.
Proof.
  intros Hne Hwf. unfold add_custom_headers, with_headers.
  rewrite split_header_instructions by assumption. clear Hne.
  revert headers. induction Hwf as [|nv pairs Hnv _ IH]; intros headers;
    [reflexivity|].
  cbn [map fold_left]. now rewrite add_custom_header_pair, IH.
Qed.

Lemma header_instructions_truthy pairs :
  pairs <> [] ->
  Forall well_formed_pair pairs ->
  exists a s, header_instructions pairs = String a s.
Proof.
  intros Hne Hwf. destruct Hwf as [|[n val] pairs (Hn & _) _]; [congruence|].
  destruct n as [|a n]; [now cbn in Hn|].
  unfold header_instructions. destruct pairs; cbn; eauto.
Qed.

Lemma with_headers_lookup headers pairs n val :
  NoDup (map fst pairs) ->
  In (n, val) pairs ->
  with_headers headers pairs !! n = Some val.
Proof.
  unfold with_headers. revert headers.
  induction pairs as [|[n' v'] pairs IH]; intros headers Hnd Hin;
    [destruct Hin|].
  cbn [map fst] in Hnd. apply NoDup_cons in Hnd as [Hfresh Hnd].
  cbn [fold_left fst snd]. destruct Hin as [[= -> ->]|Hin].
  - clear IH Hnd. revert headers.
    induction pairs as [|[n' v'] pairs IH]; intros headers.
    + apply lookup_insert_eq.
    + cbn [fold_left fst snd]. rewrite insert_insert_ne.
      * apply IH. intros Hin. apply Hfresh. now right.
      * intros ->. apply Hfresh. now left.
  - now apply IH.
Qed.

Lemma searchParams_get_delete name sp :
  searchParams_get name (searchParams_delete name sp) = None.
Proof.
  induction sp as [|[k val] sp IH]; [reflexivity|]. cbn.
  destruct (String.eqb k name) eqn:E; [assumption|]. cbn. now rewrite E.
Qed.

(** ** The stream validator *)

Section Validator.

Variable w : World.
Variable cfg : Config.

Lemma trace_record_event e st : trace (record_event e st) = trace st ++ [e].
Proof. reflexivity. Qed.

(** One run of the validator, spelled out. *)
Lemma validateStream_fn_run url st :
  validateStream_fn w cfg url st =
  match new_URL w url with
  | None => (Returns None, st)
  | Some urlObj =>
      let headers := request_headers cfg urlObj in
      let cleanUrl := URL_toString w (clean_URL cfg urlObj) in
      let head := fetch w (trace st) HEAD cleanUrl headers in
      let st1 := record_event (Fetched HEAD cleanUrl headers head) st in
      match head with
      | Responds status =>
          (Returns (if status <? 400 then Some cleanUrl else None), st1)
      | Rejects =>
          let get := fetch w (trace st1) GET cleanUrl headers in
          let st2 := record_event (Fetched GET cleanUrl headers get) st1 in
          match get with
          | Responds status =>
              (Returns (if status <? 400 then Some cleanUrl else None), st2)
          | Rejects => (Returns None, st2)
          end
      end
  end.
Proof.
  unfold validateStream_fn, try_catch, bind, do_fetch, throw, ret.
  destruct (new_URL w url) as [urlObj|]; [|reflexivity]. cbv zeta.
  destruct (fetch w (trace st) HEAD _ _) as [status|].
  - now destruct (status <? 400).
  - destruct (fetch w _ GET _ _) as [status|]; [|reflexivity].
    now destruct (status <? 400).
Qed.

Lemma record_events_nil st : record_events [] st = st.
Proof. destruct st. unfold record_events. cbn. now rewrite app_nil_r. Qed.

Lemma record_event_events e st : record_event e st = record_events [e] st.
Proof. reflexivity. Qed.

Lemma record_events_app evs1 evs2 st :
  record_events evs2 (record_events evs1 st) = record_events (evs1 ++ evs2) st.
Proof. unfold record_events. cbn. now rewrite app_assoc. Qed.

(** The validator returns, and only adds its probes to the trace. *)
Lemma validateStream_fn_does url st :
  exists r evs,
    validateStream_fn w cfg url st = (Returns r, record_events evs st)
    /\ validation w cfg url (trace st) r evs.
Proof.
  rewrite validateStream_fn_run. unfold validation.
  destruct (new_URL w url) as [urlObj|].
  - cbv zeta. destruct (fetch w (trace st) HEAD _ _) as [status|].
    + eexists _, _. split; [|split; reflexivity]. reflexivity.
    + rewrite trace_record_event.
      destruct (fetch w _ GET _ _) as [status|];
        (eexists _, _; split; [|split; reflexivity]);
        now rewrite !record_event_events, record_events_app.
  - exists None, []. now rewrite record_events_nil.
Qed.

(** C4. The validator probes with [HEAD] first and retries once, with [GET],
    exactly when the [HEAD] probe is rejected (and not when it is answered,
    whatever the status); the probe that is answered decides: a status below
    400 gives the cleaned URL, any other status gives [undefined]; a URL that
    does not parse, or two rejected probes, give [undefined] as well. The
    validator never throws. *)
Theorem validateStream_probes url st :
  exists r st' evs,
    validateStream_fn w cfg url st = (Returns r, st')
    /\ trace st' = trace st ++ evs
    /\ match new_URL w url with
       | None => evs = [] /\ r = None
       | Some urlObj =>
           let headers := request_headers cfg urlObj in
           let cleanUrl := URL_toString w (clean_URL cfg urlObj) in
           let head := Fetched HEAD cleanUrl headers in
           let get := Fetched GET cleanUrl headers in
           match fetch w (trace st) HEAD cleanUrl headers with
           | Responds status =>
               evs = [head (Responds status)]
               /\ r = (if status <? 400 then Some cleanUrl else None)
           | Rejects =>
               match fetch w (trace st ++ [head Rejects])
                       GET cleanUrl headers with
               | Responds status =>
                   evs = [head Rejects; get (Responds status)]
                   /\ r = (if status <? 400 then Some cleanUrl else None)
               | Rejects => evs = [head Rejects; get Rejects] /\ r = None
               end
           end
       end.
Proof.
  destruct (validateStream_fn_does url st) as (r & evs & Hrun & Hv).
  exists r, (record_events evs st), evs. now repeat split.
Qed.

Lemma request_headers_pairs urlObj pairs :
  pairs <> [] ->
  Forall well_formed_pair pairs ->
  searchParams_get (customHeaderKey cfg) (searchParams urlObj)
  = Some (header_instructions pairs) ->
  request_headers cfg urlObj
  = with_headers {[ "user-agent" := USER_AGENT cfg ]} pairs
  /\ clean_URL cfg urlObj
     = mkURL (base urlObj)
         (searchParams_delete (customHeaderKey cfg) (searchParams urlObj))
         (hash urlObj).
Proof.
  intros Hne Hwf Hget. unfold request_headers, clean_URL. rewrite Hget.
  destruct (header_instructions_truthy pairs Hne Hwf) as (a & s & E).
  rewrite <- (add_custom_headers_pairs _ pairs Hne Hwf), E. now split.
Qed.

(** C7. When a direct URL carries the reserved parameter with the
    instructions [name:value,name2:value2] (names non-empty and without [:]
    or [,], values without [,] but possibly with further [:]), the validator
    sends each pair as a request header next to the user agent, probes the
    URL without the reserved parameter, with those headers on every probe,
    and returns that cleaned URL when it returns one. *)
Theorem validateStream_custom_headers url urlObj pairs st :
  new_URL w url = Some urlObj ->
  pairs <> [] ->
  Forall well_formed_pair pairs ->
  searchParams_get (customHeaderKey cfg) (searchParams urlObj)
  = Some (header_instructions pairs) ->
  let cleaned :=
    mkURL (base urlObj)
      (searchParams_delete (customHeaderKey cfg) (searchParams urlObj))
      (hash urlObj) in
  let cleanUrl := URL_toString w cleaned in
  let headers := with_headers {[ "user-agent" := USER_AGENT cfg ]} pairs in
  searchParams_get (customHeaderKey cfg) (searchParams cleaned) = None
  /\ (NoDup (map fst pairs) ->
      forall name val, In (name, val) pairs -> headers !! name = Some val)
  /\ exists r st' evs,
       validateStream_fn w cfg url st = (Returns r, st')
       /\ trace st' = trace st ++ evs
       /\ (exists rest, probes evs = (HEAD, cleanUrl, headers) :: rest)
       /\ Forall (fun p => snd (fst p) = cleanUrl /\ snd p = headers)
                 (probes evs)
       /\ (r = Some cleanUrl \/ r = None)
       /\ (forall status,
             last evs = Some (Fetched HEAD cleanUrl headers (Responds status))
             \/ last evs
                = Some (Fetched GET cleanUrl headers (Responds status)) ->
             status < 400 -> r = Some cleanUrl).
Proof.
  intros Hurl Hne Hwf Hget cleaned cleanUrl headers.
  destruct (request_headers_pairs urlObj pairs Hne Hwf Hget) as [Hh Hc].
  split; [apply searchParams_get_delete|].
  split; [intros Hnd name val Hin; now apply with_headers_lookup|].
  destruct (validateStream_fn_does url st) as (r & evs & Hrun & H).
  exists r, (record_events evs st), evs.
  split; [assumption|]. split; [reflexivity|].
  unfold validation in H.
  rewrite Hurl in H. cbv zeta in H. rewrite Hh, Hc in H.
  fold cleaned cleanUrl headers in H.
  destruct (fetch w (trace st) HEAD cleanUrl headers) as [status|].
  - destruct H as [-> ->]. cbn. split; [eauto|]. split; [repeat constructor|].
    split; [destruct (status <? 400); eauto|].
    intros status' [[= <-]|[=]] Hlt.
    apply Z.ltb_lt in Hlt. now rewrite Hlt.
  - destruct (fetch w _ GET cleanUrl headers) as [status|];
      destruct H as [-> ->]; cbn; (split; [eauto|]);
      (split; [repeat constructor|]).
    + split; [destruct (status <? 400); eauto|].
      intros status' [[=]|[= <-]] Hlt.
      apply Z.ltb_lt in Hlt. now rewrite Hlt.
    + split; [eauto|]. intros status' [[=]|[=]].
Qed.

End Validator.

(** ** Caches *)

Section MapFacts.

Context {V : Type}.
Implicit Types (m : JSMap.t V).

Lemma JSMap_get_set k val m : JSMap.get k (JSMap.set k val m) = Some val.
Proof.
  induction m as [|[k' v'] m IH]; cbn.
  - now rewrite String.eqb_refl.
  - destruct (String.eqb k' k) eqn:E; cbn; now rewrite E.
Qed.

End MapFacts.

Lemma filter_idem {A} (f : A -> bool) (l : list A) :
  List.filter f (List.filter f l) = List.filter f l.
Proof.
  induction l as [|a l IH]; [reflexivity|]. cbn.
  destruct (f a) eqn:E; [cbn; rewrite E; now f_equal|assumption].
Qed.


(** The time-bounded store: an entry written at [time] into a fresh cache is
    there for every lookup before [time + ttl], and for none from then on,
    however many entries there are. *)
Lemma TtlCache_expires_by_age {V} ttl time k (val : V) later :
  TtlCache.has later k (TtlCache.set time k val (TtlCache.new ttl))
  = (later <? time + ttl,
     if later <? time + ttl
     then TtlCache.mk ttl [(k, (val, time + ttl))]
     else TtlCache.new ttl).
Proof.
  unfold TtlCache.has, TtlCache.set, TtlCache.expire, TtlCache.live,
    JSMap.has.
  cbn [TtlCache.entries TtlCache.defaultTtl TtlCache.new List.filter
       JSMap.set snd].
  destruct (later <? time + ttl); cbn [JSMap.get]; [|reflexivity].
  now rewrite String.eqb_refl.
Qed.

(** The capacity-bounded store: with room for two, reading [a] before
    writing [c] makes [b] the least recently used entry, and [b] is the one
    that goes; time plays no part. *)
Example LruCache_evicts_least_recent :
  let full :=
    LruCache.set "b" 2%nat (LruCache.set "a" 1%nat (LruCache.new 2)) in
  LruCache.entries (LruCache.set "c" 3%nat (snd (LruCache.get "a" full)))
  = [("a", 1%nat); ("c", 3%nat)]
  /\ LruCache.entries (LruCache.set "c" 3%nat full)
     = [("b", 2%nat); ("c", 3%nat)].
Proof. split; reflexivity. Qed.

(** ** Memoized calls within a request *)

Lemma STREAM_VALIDATION_CACHE_lawful :
  lawful_slot STREAM_VALIDATION_CACHE_slot.
Proof. split; reflexivity. Qed.

Lemma VIDEO_INFO_CACHE_lawful : lawful_slot VIDEO_INFO_CACHE_slot.
Proof. split; reflexivity. Qed.

Lemma validateStream_Map_lawful : lawful_slot validateStream_Map_slot.
Proof. split; reflexivity. Qed.

Lemma getVideoInfo_Map_lawful : lawful_slot getVideoInfo_Map_slot.
Proof. split; reflexivity. Qed.

Lemma getVideoId_Map_lawful : lawful_slot getVideoId_Map_slot.
Proof. split; reflexivity. Qed.

Section MemoizeFacts.

Variable w : World.
Context {C : Type} `{MemoizationCache C Cached}.
Variable slot : Slot C.
Hypothesis lawful : lawful_slot slot.
Variable fn : string -> M (option string).
Variable getKey : string -> string.
Variable arg : string.

(** What a call of [fn] on [arg] does: it gives back [r] and leaves [evs] in
    the trace, which was [tr] before. *)
Variable does : list Event -> option string -> list Event -> Prop.

Hypothesis fn_does :
  forall st, exists r evs,
    fn arg st = (Returns r, record_events evs st) /\ does (trace st) r evs.

(** A memoized call answers from the cache and leaves no trace, or is one
    call of [fn] and returns what it returned. *)
Lemma memoize_run st :
  exists o st' evs,
    memoize w fn slot getKey arg st = (o, st')
    /\ st' = poke slot (peek slot st') (record_events evs st)
    /\ (evs = [] \/ exists r, o = Returns r /\ does (trace st) r evs).
Proof.
  unfold memoize.
  destruct (cache_has _ _ (peek slot st)) as [[|] c1].
  - destruct (cache_get _ _ c1) as [[promise|] c2];
      eexists _, _, []; (split; [reflexivity|]);
      rewrite record_events_nil, (slot_peek_poke slot lawful);
      (split; [reflexivity|now left]).
  - destruct (fn_does (poke slot c1 st)) as (r & evs & -> & Hdoes).
    rewrite (slot_trace slot lawful) in Hdoes.
    rewrite (slot_peek_record slot lawful), (slot_peek_poke slot lawful).
    eexists (Returns r), _, evs. split; [reflexivity|].
    rewrite !(slot_poke_record slot lawful), (slot_peek_record slot lawful).
    rewrite !(slot_peek_poke slot lawful), !(slot_poke_poke slot lawful).
    split; [reflexivity|]. right. eauto.
Qed.

End MemoizeFacts.

(** ** The memoized functions of [main.ts] *)

(** Closes a goal from [Hex : Exists _ evs] when no event of the explicit
    list [evs] is a failure. *)
Ltac no_failure Hex :=
  repeat (apply Exists_cons in Hex as [Hex|Hex]; [discriminate Hex|]);
  now apply Exists_nil in Hex.

Section PipelineFacts.

Variable w : World.
Variable cfg : Config.

Lemma getVideoInfo_fn_does vid st :
  exists r evs,
    getVideoInfo_fn w vid st = (Returns r, record_events evs st)
    /\ manifest_lookup w vid (trace st) r evs.
Proof.
  unfold getVideoInfo_fn, try_catch, do_getInfo, manifest_lookup, ret.
  destruct (session_getInfo w (trace st) vid) as [r|];
    eexists _, _; (split; [|split; reflexivity]); reflexivity.
Qed.

Lemma getVideoId_fn_does url st :
  exists r evs,
    getVideoId_fn w url st = (Returns r, record_events evs st)
    /\ id_lookup w url (trace st) r evs.
Proof.
  unfold getVideoId_fn, try_catch, do_resolveURL, id_lookup, ret.
  destruct (session_resolveURL w (trace st) url) as [r|];
    eexists _, _; (split; [|split; reflexivity]); reflexivity.
Qed.

(** A memoized call leaves [evs] in the trace. *)
Lemma poked_trace {C} (slot : Slot C) cache evs st st' :
  lawful_slot slot ->
  st' = poke slot cache (record_events evs st) ->
  trace st' = trace st ++ evs.
Proof. intros Hl ->. now rewrite (slot_trace slot Hl). Qed.

(** Brings [memoize_run] for the slot with laws [L] into the shape of the
    three lemmas below. *)
Ltac memoized_run L getKey does :=
  match goal with
  | |- context [memoize ?w ?fn ?slot _ ?arg ?st] =>
      destruct (memoize_run w slot L fn getKey arg _ (does arg) st)
        as (o & st' & evs & Hrun & Hst' & Hevs);
      exists o, st', evs; split; [exact Hrun|];
      split; [exact (poked_trace _ _ _ _ _ L Hst')|exact Hevs]
  end.

Lemma validateStream_run url st :
  exists o st' evs,
    validateStream w cfg url st = (o, st')
    /\ trace st' = trace st ++ evs
    /\ (evs = []
        \/ exists r, o = Returns r /\ validation w cfg url (trace st) r evs).
Proof.
  unfold validateStream. destruct (USE_CACHE cfg).
  - memoized_run STREAM_VALIDATION_CACHE_lawful
      (fun u => "stream:" +:+ u) (validateStream_fn_does w cfg).
  - memoized_run validateStream_Map_lawful
      (fun u => "stream:" +:+ u) (validateStream_fn_does w cfg).
Qed.

Lemma getVideoInfo_run vid st :
  exists o st' evs,
    getVideoInfo w cfg vid st = (o, st')
    /\ trace st' = trace st ++ evs
    /\ (evs = []
        \/ exists r, o = Returns r /\ manifest_lookup w vid (trace st) r evs).
Proof.
  unfold getVideoInfo. destruct (USE_CACHE cfg).
  - memoized_run VIDEO_INFO_CACHE_lawful
      (fun u => "video:" +:+ u) getVideoInfo_fn_does.
  - memoized_run getVideoInfo_Map_lawful
      (fun u => "video:" +:+ u) getVideoInfo_fn_does.
Qed.

Lemma getVideoId_run url st :
  exists o st' evs,
    getVideoId w cfg url st = (o, st')
    /\ trace st' = trace st ++ evs
    /\ (evs = []
        \/ exists r, o = Returns r /\ id_lookup w url (trace st) r evs).
Proof.
  unfold getVideoId. destruct (USE_CACHE cfg).
  - memoized_run VIDEO_INFO_CACHE_lawful
      (fun u => "resolve:" +:+ u) getVideoId_fn_does.
  - memoized_run getVideoId_Map_lawful
      (fun u => "resolve:" +:+ u) getVideoId_fn_does.
Qed.

(** *** What the three kinds of upstream call leave in the trace *)

Lemma validation_quiet url tr r evs :
  validation w cfg url tr r evs ->
  dispatched evs = []
  /\ Forall (fun e => is_manifest_fetch e = false) evs
  /\ (Exists (fun e => is_failure e = true) evs -> r = None).
Proof.
  unfold validation. destruct (new_URL w url) as [urlObj|]; cbv zeta;
    [destruct (fetch w tr HEAD _ _) as [status|];
     [|destruct (fetch w _ GET _ _) as [status'|]]|];
    intros [-> ->]; (split; [reflexivity|]);
    (split; [repeat constructor|]); intros Hex;
    try reflexivity; exfalso; no_failure Hex.
Qed.

Lemma manifest_lookup_quiet vid tr r evs :
  manifest_lookup w vid tr r evs ->
  dispatched evs = []
  /\ (Exists (fun e => is_failure e = true) evs -> r = None).
Proof.
  unfold manifest_lookup. intros [-> ->]. split; [reflexivity|].
  destruct (session_getInfo w tr vid); [|reflexivity].
  intros Hex. exfalso. no_failure Hex.
Qed.

Lemma id_lookup_quiet url tr r evs :
  id_lookup w url tr r evs ->
  dispatched evs = []
  /\ Forall (fun e => is_manifest_fetch e = false) evs
  /\ (Exists (fun e => is_failure e = true) evs -> r = None).
Proof.
  unfold id_lookup. intros [-> ->].
  split; [reflexivity|]. split; [repeat constructor|].
  destruct (session_resolveURL w tr url); [|reflexivity].
  intros Hex. exfalso. no_failure Hex.
Qed.

End PipelineFacts.

(** ** One candidate *)

Section Orchestrator.

Variable w : World.
Variable cfg : Config.

Lemma dispatched_app evs1 evs2 :
  dispatched (evs1 ++ evs2) = dispatched evs1 ++ dispatched evs2.
Proof. apply omap_app. Qed.

(** [try { return await m } catch { }] *)
Lemma try_catch_absent (m : M (option string)) st o st' :
  m st = (o, st') ->
  try_catch m (ret None) st = (Returns (or_absent o), st').
Proof. unfold try_catch. intros ->. now destruct o. Qed.

Lemma quiet_nil o : quiet o [].
Proof. split; [reflexivity|]. intros Hex. now apply Exists_nil in Hex. Qed.

Lemma validateStream_quiet url tr o evs :
  evs = [] \/ (exists r, o = Returns r /\ validation w cfg url tr r evs) ->
  quiet o evs.
Proof.
  intros [->|(r & -> & Hv)]; [apply quiet_nil|].
  apply validation_quiet in Hv. split; tauto.
Qed.

Lemma getVideoInfo_quiet vid tr o evs :
  evs = [] \/ (exists r, o = Returns r /\ manifest_lookup w vid tr r evs) ->
  quiet o evs.
Proof.
  intros [->|(r & -> & Hv)]; [apply quiet_nil|].
  now apply manifest_lookup_quiet in Hv.
Qed.

Lemma getVideoId_quiet url tr o evs :
  evs = [] \/ (exists r, o = Returns r /\ id_lookup w url tr r evs) ->
  quiet o evs /\ Forall (fun e => is_manifest_fetch e = false) evs.
Proof.
  intros [->|(r & -> & Hv)]; [split; [apply quiet_nil|constructor]|].
  apply id_lookup_quiet in Hv. split; [split|]; tauto.
Qed.

(** Resolving a by-handle candidate, step by step. *)
Lemma getHslStream_by_handle handle st :
  let param := mkParam c handle in
  let url := "https://www.youtube.com/" +:+ handle +:+ "/live" in
  exists o st1 evs1,
    getVideoId w cfg url (record_event (Dispatched param) st) = (o, st1)
    /\ trace st1 = trace st ++ Dispatched param :: evs1
    /\ (evs1 = []
        \/ exists vid,
             o = Returns vid
             /\ id_lookup w url (trace st ++ [Dispatched param]) vid evs1)
    /\ match o with
       | Returns (Some (String a s)) =>
           getHslStream w cfg param st
           = try_catch (getVideoInfo w cfg (String a s)) (ret None) st1
       | _ =>
           getHslStream w cfg param st = (Returns None, st1)
           /\ Forall (fun e => is_manifest_fetch e = false) evs1
       end.
Proof.
  intros param url.
  destruct (getVideoId_run w cfg url (record_event (Dispatched param) st))
    as (o & st1 & evs1 & Hid & Htr & Hevs).
  exists o, st1, evs1. split; [exact Hid|].
  split; [rewrite Htr; cbn; now rewrite <- app_assoc|].
  split; [exact Hevs|].
  destruct (getVideoId_quiet _ _ _ _ Hevs) as [_ Hquiet].
  unfold getHslStream, try_catch, bind, live_page. subst param url.
  cbn [type value]. rewrite Hid.
  destruct o as [[[|a s]|]|];
    [now split|reflexivity|now split|now split].
Qed.

(** Resolving a candidate never throws; it leaves its own dispatch and
    upstream calls in the trace; and an upstream failure makes it absent. *)
Lemma getHslStream_run param st :
  exists r st' evs,
    getHslStream w cfg param st = (Returns r, st')
    /\ trace st' = trace st ++ Dispatched param :: evs
    /\ dispatched evs = []
    /\ (Exists (fun e => is_failure e = true) evs -> r = None).
Proof.
  destruct param as [[| |] val].
  - (* v *)
    destruct (getVideoInfo_run w cfg val
                (record_event (Dispatched (mkParam v val)) st))
      as (o & st' & evs & Hrun & Htr & Hevs).
    exists (or_absent o), st', evs.
    split; [exact (try_catch_absent _ _ _ _ Hrun)|].
    split; [rewrite Htr; cbn; now rewrite <- app_assoc|].
    exact (getVideoInfo_quiet _ _ _ _ Hevs).
  - (* c *)
    destruct (getHslStream_by_handle val st)
      as (o & st1 & evs1 & Hid & Htr1 & Hevs1 & Hrest).
    destruct (getVideoId_quiet _ _ _ _ Hevs1) as [[Hd1 Hf1] _].
    assert (Habsent :
              getHslStream w cfg (mkParam c val) st = (Returns None, st1) ->
              exists r st' evs,
                getHslStream w cfg (mkParam c val) st = (Returns r, st')
                /\ trace st' = trace st ++ Dispatched (mkParam c val) :: evs
                /\ dispatched evs = []
                /\ (Exists (fun e => is_failure e = true) evs -> r = None)).
    { intros ->. exists None, st1, evs1. tauto. }
    destruct o as [[[|a s]|]|].
    1, 3, 4: destruct Hrest as [Hrest _]; now apply Habsent.
    rewrite Hrest.
    destruct (getVideoInfo_run w cfg (String a s) st1)
      as (o & st' & evs & Hrun & Htr & Hevs).
    destruct (getVideoInfo_quiet _ _ _ _ Hevs) as [Hd Hf].
    exists (or_absent o), st', (evs1 ++ evs).
    split; [exact (try_catch_absent _ _ _ _ Hrun)|].
    split; [rewrite Htr, Htr1, <- app_assoc; reflexivity|].
    split; [now rewrite dispatched_app, Hd1, Hd|].
    intros Hex. apply Exists_app in Hex as [Hex|Hex]; [|auto].
    now specialize (Hf1 Hex).
  - (* x *)
    destruct (validateStream_run w cfg val
                (record_event (Dispatched (mkParam x val)) st))
      as (o & st' & evs & Hrun & Htr & Hevs).
    exists (or_absent o), st', evs.
    split; [exact (try_catch_absent _ _ _ _ Hrun)|].
    split; [rewrite Htr; cbn; now rewrite <- app_assoc|].
    exact (validateStream_quiet _ _ _ _ Hevs).
Qed.

(** When a candidate comes back absent, the loop goes on with the others. *)
Lemma first_stream_absent param rest r st st' :
  getHslStream w cfg param st = (Returns r, st') ->
  JS.truthy r = false ->
  first_stream w cfg (param :: rest) st = first_stream w cfg rest st'.
Proof.
  intros Hrun Hr. cbn [first_stream]. unfold bind. rewrite Hrun.
  now destruct r as [[|a s]|].
Qed.

Lemma first_stream_present param rest u st st' :
  getHslStream w cfg param st = (Returns (Some u), st') ->
  JS.truthy (Some u) = true ->
  first_stream w cfg (param :: rest) st = (Returns (Redirect u), st').
Proof.
  intros Hrun Hr. cbn [first_stream]. unfold bind. rewrite Hrun.
  now destruct u.
Qed.

End Orchestrator.

(** ** The fallback orchestrator *)

Section Fallback.

Variable w : World.
Variable cfg : Config.

(** C2. The loop dispatches the candidates in their order and answers with a
    redirect to the result of the first one that comes back present (a
    non-empty string, which is what the loop tests); that candidate is the
    last one dispatched. When every candidate comes back absent, all have
    been dispatched, in order, and the answer is the single 404 "No valid
    stream found!". *)
Theorem first_stream_first_present params st :
  exists resp st' evs,
    first_stream w cfg params st = (Returns resp, st')
    /\ trace st' = trace st ++ evs
    /\ ((exists before param after st1 u,
           params = before ++ param :: after
           /\ absent_run w cfg before st st1
           /\ getHslStream w cfg param st1 = (Returns (Some u), st')
           /\ JS.truthy (Some u) = true
           /\ resp = Redirect u
           /\ status_code resp = 302
           /\ dispatched evs = before ++ [param])
        \/ (absent_run w cfg params st st'
            /\ resp = NoValidStream
            /\ status_code resp = 404
            /\ dispatched evs = params)).
Proof.
  revert st. induction params as [|param rest IH]; intros st.
  - exists NoValidStream, st, []. rewrite app_nil_r.
    split; [reflexivity|]. split; [reflexivity|].
    right. repeat split. constructor.
  - destruct (getHslStream_run w cfg param st)
      as (r & st1 & evs1 & Hrun & Htr1 & Hd1 & _).
    destruct (JS.truthy r) eqn:Hr.
    + destruct r as [u|]; [|discriminate Hr].
      exists (Redirect u), st1, (Dispatched param :: evs1).
      split; [now apply first_stream_present|].
      split; [assumption|]. left.
      exists [], param, rest, st, u. cbn [app dispatched omap].
      repeat split; try assumption; [constructor|].
      cbn. fold (dispatched evs1). now rewrite Hd1.
    + rewrite (first_stream_absent w cfg param rest r st st1 Hrun Hr).
      destruct (IH st1) as (resp & st' & evs & Hfs & Htr & Hcase).
      exists resp, st', (Dispatched param :: evs1 ++ evs).
      split; [assumption|].
      split; [rewrite Htr, Htr1, <- app_assoc; reflexivity|].
      assert (Hd : dispatched (Dispatched param :: evs1 ++ evs)
                   = param :: dispatched evs).
      { change (Dispatched param :: evs1 ++ evs)
          with ([Dispatched param] ++ evs1 ++ evs).
        now rewrite !dispatched_app, Hd1. }
      destruct Hcase
        as [(before & p & after & st2 & u & -> & Hab & Hp & Hu & -> & Hc & Hd')
           |(Hab & -> & Hc & Hd')].
      * left. exists (param :: before), p, after, st2, u.
        repeat split; try assumption.
        -- now apply (absent_cons w cfg param before st r st1 st2).
        -- rewrite Hd, Hd'. reflexivity.
      * right. repeat split.
        -- now apply (absent_cons w cfg param rest st r st1 st').
        -- rewrite Hd, Hd'. reflexivity.
Qed.

(** C5. Whatever the world does, resolving a candidate ends without an
    exception. If one of its upstream calls failed for good (a rejected [GET]
    probe after the rejected [HEAD] probe, a throwing [session.getInfo] or
    [session.resolveURL]), the candidate comes back absent, and from an
    absent candidate the loop goes on with the remaining ones. *)
Theorem candidate_failure_is_absence param st :
  exists r st' evs,
    getHslStream w cfg param st = (Returns r, st')
    /\ trace st' = trace st ++ Dispatched param :: evs
    /\ dispatched evs = []
    /\ (Exists (fun e => is_failure e = true) evs -> r = None)
    /\ (JS.truthy r = false ->
        forall rest,
          first_stream w cfg (param :: rest) st
          = first_stream w cfg rest st').
Proof.
  destruct (getHslStream_run w cfg param st)
    as (r & st' & evs & Hrun & Htr & Hd & Hfail).
  exists r, st', evs. repeat split; try assumption.
  intros Hr rest. now apply first_stream_absent with r.
Qed.

(** C6. A by-handle candidate is resolved through the live page
    [https://www.youtube.com/<handle>/live], given to the memoized
    [getVideoId]. When that yields nothing (or the empty string, or throws),
    the candidate is absent and the process is left as [getVideoId] left it:
    no manifest fetch took place. When it yields an id, the candidate's
    result is that of the memoized [getVideoInfo] on this id, in the state
    [getVideoId] left. *)
Theorem by_handle_resolution handle st :
  let param := mkParam c handle in
  let url := "https://www.youtube.com/" +:+ handle +:+ "/live" in
  exists o st1 evs1,
    getVideoId w cfg url (record_event (Dispatched param) st) = (o, st1)
    /\ trace st1 = trace st ++ Dispatched param :: evs1
    /\ (evs1 = []
        \/ exists vid,
             o = Returns vid
             /\ id_lookup w url (trace st ++ [Dispatched param]) vid evs1)
    /\ match o with
       | Returns (Some (String a s)) =>
           getHslStream w cfg param st
           = try_catch (getVideoInfo w cfg (String a s)) (ret None) st1
       | _ =>
           getHslStream w cfg param st = (Returns None, st1)
           /\ Forall (fun e => is_manifest_fetch e = false) evs1
       end.
Proof. exact (getHslStream_by_handle w cfg handle st). Qed.

Lemma no_recognized_key (entries : list (string * string)) :
  omap (fun kv => param_type (fst kv)) entries = []
  <-> Forall (fun kv => param_type (fst kv) = None) entries.
Proof.
  induction entries as [|[key val] entries IH]; [now split|].
  cbn. destruct (param_type key) eqn:Hk.
  - split; [discriminate|]. intros Hall.
    inversion Hall as [|? ? Hnone _]. cbn in Hnone. congruence.
  - rewrite IH. split; [now constructor|].
    intros Hall. now inversion Hall.
Qed.

Lemma parse_params_nil entries :
  parse_params entries = []
  <-> Forall (fun kv => param_type (fst kv) = None) entries.
Proof.
  rewrite <- no_recognized_key, <- parse_params_types.
  now destruct (parse_params entries).
Qed.


End Fallback.

(** ** Overlapping callers *)

Module EventLoopFacts.

Import EventLoop.

Section Sharing.

Context {C : Type} `{MemoizationCache C nat}.

Variable getKey : string -> string.
Variable arg : string.
Variable fresh : C.
Variable first : Z.

(** The cache still has promise 0 under the key of [arg]. *)
Variable holds : C -> Prop.
(** The time lies within the life of that entry. *)
Variable in_time : Z -> Prop.

Hypothesis fresh_misses :
  exists c1,
    cache_has first (getKey arg) fresh = (false, c1)
    /\ holds (cache_set first (getKey arg) 0%nat c1).

Hypothesis held_hits :
  forall time cache,
    in_time time -> holds cache ->
    exists c1 c2,
      cache_has time (getKey arg) cache = (true, c1)
      /\ cache_get time (getKey arg) c1 = (Some 0%nat, c2)
      /\ holds c2.

Lemma later_calls_hit later l :
  Forall in_time later ->
  holds (cache l) ->
  exists cache',
    calls getKey later arg l
    = (repeat (Some 0%nat) (length later),
       mkLoop cache' (promises l) (invocations l))
    /\ holds cache'.
Proof.
  intros Hlater. revert l.
  induction Hlater as [|time later Htime _ IH]; intros [cache ps inv] Hc.
  - exists cache. now split.
  - cbn [promises invocations EventLoop.cache] in *.
    destruct (held_hits time cache Htime Hc) as (c1 & c2 & Hhas & Hget & Hc2).
    destruct (IH (mkLoop c2 ps inv) Hc2) as (cache' & Hcalls & Hc').
    exists cache'. split; [|assumption].
    cbn [calls length repeat]. unfold call.
    cbn [promises invocations EventLoop.cache] in *.
    now rewrite Hhas, Hget, Hcalls.
Qed.

Lemma fresh_cache_shares later :
  Forall in_time later ->
  share_one_call fresh getKey first later arg.
Proof.
  intros Hlater. unfold share_one_call.
  destruct fresh_misses as (c1 & Hhas & Hc).
  cbn [calls]. unfold call at 1, start.
  cbn [promises invocations EventLoop.cache length app]. rewrite Hhas.
  destruct (later_calls_hit later
              (mkLoop (cache_set first (getKey arg) 0%nat c1)
                      [(getKey arg, None)] [arg]) Hlater Hc)
    as (cache' & -> & _).
  cbn [promises invocations]. split; [reflexivity|]. split; [reflexivity|].
  intros time o. unfold settle. cbn [promises invocations lookup].
  change (Some 0%nat :: repeat (Some 0%nat) (length later))
    with (repeat (Some 0%nat) (S (length later))).
  apply Forall_forall. intros promise Hin.
  apply list_elem_of_In, repeat_spec in Hin as ->. reflexivity.
Qed.

End Sharing.

Lemma JSMap_get_filter {V} (f : string * V -> bool) k val (m : JSMap.t V) :
  JSMap.get k m = Some val ->
  f (k, val) = true ->
  JSMap.get k (List.filter f m) = Some val.
Proof.
  induction m as [|[k' v'] m IH]; cbn; [discriminate|].
  destruct (String.eqb_spec k' k) as [->|Hne].
  - intros [= ->] Hf. rewrite Hf. cbn. now rewrite String.eqb_refl.
  - intros Hget Hf. destruct (f (k', v')); [cbn|now apply IH].
    destruct (String.eqb_spec k' k); [congruence|now apply IH].
Qed.

Lemma LruCache_shares getKey arg maxSize first later :
  1 <= maxSize ->
  share_one_call (LruCache.new (V := nat) maxSize) getKey first later arg.
Proof.
  intros Hmax.
  apply (fresh_cache_shares getKey arg _ first
           (fun cache => JSMap.get (getKey arg) (LruCache.entries cache)
                         = Some 0%nat)
           (fun _ => True)).
  - eexists. split; [reflexivity|]. cbn.
    unfold LruCache.set, LruCache.pruneToMaxSize. cbn.
    change (JSMap.size [(getKey arg, 0%nat)]) with 1.
    replace (maxSize <? 1) with false by (symmetry; apply Z.ltb_ge; lia).
    cbn. now rewrite String.eqb_refl.
  - intros time cache _ Hget. cbn. unfold LruCache.has, LruCache.get.
    rewrite Hget. eexists _, _. split; [reflexivity|].
    unfold LruCache.setMostRecentlyUsed. cbn [LruCache.entries].
    rewrite JSMap_get_set. split; [reflexivity|]. cbn [LruCache.entries].
    apply JSMap_get_set.
  - clear. induction later; now constructor.
Qed.

Lemma TtlCache_shares getKey arg ttl first later :
  Forall (fun time => time < first + ttl) later ->
  share_one_call (TtlCache.new (V := nat) ttl) getKey first later arg.
Proof.
  apply (fresh_cache_shares getKey arg _ first
           (fun cache =>
              TtlCache.defaultTtl cache = ttl
              /\ JSMap.get (getKey arg) (TtlCache.entries cache)
                 = Some (0%nat, first + ttl))).
  - eexists. split; [reflexivity|]. cbn. now rewrite String.eqb_refl.
  - intros time cache Htime [Httl Hget]. cbn.
    unfold TtlCache.has, TtlCache.get, TtlCache.expire, JSMap.has.
    cbn [TtlCache.entries TtlCache.defaultTtl].
    assert (Hlive : JSMap.get (getKey arg)
                      (List.filter (TtlCache.live time)
                         (TtlCache.entries cache))
                    = Some (0%nat, first + ttl)).
    { apply JSMap_get_filter; [assumption|].
      unfold TtlCache.live. cbn. now apply Z.ltb_lt. }
    rewrite Hlive. eexists _, _. split; [reflexivity|].
    cbn [TtlCache.entries TtlCache.defaultTtl]. rewrite filter_idem, Hlive.
    split; [reflexivity|]. now split.
Qed.

Lemma JSMap_shares getKey arg first later :
  share_one_call ([] : JSMap.t nat) getKey first later arg.
Proof.
  apply (fresh_cache_shares getKey arg _ first
           (fun cache => JSMap.get (getKey arg) cache = Some 0%nat)
           (fun _ => True)).
  - eexists. split; [reflexivity|]. cbn. now rewrite String.eqb_refl.
  - intros time cache _ Hget. cbn. unfold JSMap.has. rewrite Hget.
    exists cache, cache. rewrite Hget. now repeat split.
  - clear. induction later; now constructor.
Qed.

End EventLoopFacts.

(** ** Which cache remembers what *)

Section CachePolicies.

Variable w : World.
Variable cfg : Config.

Lemma USE_CACHE_stream : 0 < STREAM_VALIDATION_CACHE_TTL cfg -> USE_CACHE cfg = true.
Proof.
  intros Httl. unfold USE_CACHE.
  destruct (Z.eqb_spec (STREAM_VALIDATION_CACHE_TTL cfg) 0); [lia|reflexivity].
Qed.

(** From a fresh process, a validated URL is answered from the cache at any
    later time. *)
Lemma validateStream_never_expires url :
  0 < STREAM_VALIDATION_CACHE_TTL cfg ->
  exists r st1 st2,
    validateStream w cfg url (initial_state cfg) = (Returns r, st1)
    /\ validateStream w cfg url st1 = (Returns r, st2)
    /\ trace st2 = trace st1.
Proof.
  intros Httl. unfold validateStream. rewrite (USE_CACHE_stream Httl).
  unfold memoize at 1. cbn [peek STREAM_VALIDATION_CACHE_slot].
  cbn [initial_state STREAM_VALIDATION_CACHE trace cache_has LruCache_cache].
  unfold LruCache.has at 1. cbn [LruCache.entries LruCache.new JSMap.get].
  destruct (validateStream_fn_does w cfg url
              (poke STREAM_VALIDATION_CACHE_slot
                 (LruCache.new (STREAM_VALIDATION_CACHE_TTL cfg * MINUTE))
                 (initial_state cfg))) as (r & evs & -> & _).
  eexists r, _, _. split; [reflexivity|].
  unfold memoize. cbn [peek poke STREAM_VALIDATION_CACHE_slot record_events
                       STREAM_VALIDATION_CACHE trace].
  cbn [cache_set cache_has cache_get LruCache_cache].
  unfold LruCache.set, LruCache.pruneToMaxSize, LruCache.setMostRecentlyUsed.
  cbn [LruCache.entries LruCache.new LruCache.maxSize JSMap.delete JSMap.set].
  change (JSMap.size [("stream:" +:+ url, Returns r)]) with 1.
  replace (STREAM_VALIDATION_CACHE_TTL cfg * MINUTE <? 1) with false
    by (symmetry; apply Z.ltb_ge; unfold MINUTE; lia).
  unfold LruCache.has, LruCache.get, LruCache.setMostRecentlyUsed.
  cbn [LruCache.entries LruCache.maxSize JSMap.get JSMap.delete JSMap.set].
  rewrite !String.eqb_refl.
  cbn [LruCache.entries LruCache.maxSize JSMap.get JSMap.delete JSMap.set].
  rewrite !String.eqb_refl. split; reflexivity.
Qed.

(** From a fresh process, a manifest lookup is forgotten once
    [VIDEO_INFO_CACHE_SIZE] minutes have passed: the next one calls
    [session.getInfo] again. *)
Lemma getVideoInfo_expires vid :
  0 < STREAM_VALIDATION_CACHE_TTL cfg ->
  let first := GotInfo vid (session_getInfo w [] vid) in
  exists r st1,
    getVideoInfo w cfg vid (initial_state cfg) = (Returns r, st1)
    /\ trace st1 = [first]
    /\ (now w [] + VIDEO_INFO_CACHE_SIZE cfg * MINUTE <= now w [first] ->
        exists r' st2,
          getVideoInfo w cfg vid st1 = (Returns r', st2)
          /\ trace st2
             = [first; GotInfo vid (session_getInfo w [first] vid)]).
Proof.
  intros Httl first. unfold getVideoInfo. rewrite (USE_CACHE_stream Httl).
  set (ttl := VIDEO_INFO_CACHE_SIZE cfg * MINUTE).
  set (key := "video:" +:+ vid).
  assert (Hexp : forall (settled : Cached),
             now w [] + ttl <= now w [first] ->
             TtlCache.has (now w [first]) key
               (TtlCache.set (now w []) key settled (TtlCache.new ttl))
             = (false, TtlCache.new ttl)).
  { intros settled Hlate. unfold TtlCache.has, TtlCache.set, TtlCache.expire.
    cbn [TtlCache.entries TtlCache.defaultTtl TtlCache.new List.filter
         JSMap.set].
    unfold TtlCache.live. cbn [snd].
    replace (now w [first] <? now w [] + ttl)
      with false by (symmetry; apply Z.ltb_ge; lia).
    reflexivity. }
  unfold memoize at 1.
  change (cache_has _ _ (peek VIDEO_INFO_CACHE_slot (initial_state cfg)))
    with (false, TtlCache.new (V := Cached) ttl).
  cbv iota beta.
  destruct (getVideoInfo_fn_does w vid
              (poke VIDEO_INFO_CACHE_slot (TtlCache.new ttl)
                 (initial_state cfg))) as (r & evs & -> & Hevs & _).
  change (evs = [first]) in Hevs. subst evs.
  eexists r, _. split; [reflexivity|]. split; [reflexivity|].
  intros Hlate. unfold memoize.
  change (cache_has _ _ _)
    with (TtlCache.has (now w [first]) key
            (TtlCache.set (now w []) key (Returns r) (TtlCache.new ttl))).
  rewrite (Hexp _ Hlate). cbv iota beta.
  match goal with
  | |- context [getVideoInfo_fn w vid ?st] =>
      destruct (getVideoInfo_fn_does w vid st) as (r' & evs & -> & Hevs & _)
  end.
  change (evs = [GotInfo vid (session_getInfo w [first] vid)]) in Hevs.
  subst evs. eexists r', _. split; reflexivity.
Qed.

End CachePolicies.

(** C1 (as the code has it). The store of [validateStream] is the
    capacity-bounded one, an [LruCache] of [STREAM_VALIDATION_CACHE_TTL *
    MINUTE] entries, and the store of [getVideoInfo] and [getVideoId] is the
    time-bounded one, a [TtlCache] of [VIDEO_INFO_CACHE_SIZE * MINUTE]
    milliseconds: from a fresh process, in every world, a validated URL is
    answered from the cache however much later it is asked for again, while a
    manifest lookup is repeated upstream once that time has passed. *)
Theorem cache_policies_swapped w cfg arg :
  0 < STREAM_VALIDATION_CACHE_TTL cfg ->
  STREAM_VALIDATION_CACHE (initial_state cfg)
  = LruCache.new (STREAM_VALIDATION_CACHE_TTL cfg * MINUTE)
  /\ VIDEO_INFO_CACHE (initial_state cfg)
     = TtlCache.new (VIDEO_INFO_CACHE_SIZE cfg * MINUTE)
  /\ (exists r st1 st2,
        validateStream w cfg arg (initial_state cfg) = (Returns r, st1)
        /\ validateStream w cfg arg st1 = (Returns r, st2)
        /\ trace st2 = trace st1)
  /\ (let first := GotInfo arg (session_getInfo w [] arg) in
      exists r st1,
        getVideoInfo w cfg arg (initial_state cfg) = (Returns r, st1)
        /\ trace st1 = [first]
        /\ (now w [] + VIDEO_INFO_CACHE_SIZE cfg * MINUTE <= now w [first] ->
            exists r' st2,
              getVideoInfo w cfg arg st1 = (Returns r', st2)
              /\ trace st2
                 = [first; GotInfo arg (session_getInfo w [first] arg)])).
Proof.
  intros Httl. split; [reflexivity|]. split; [reflexivity|].
  split; [now apply validateStream_never_expires|].
  now apply getVideoInfo_expires.
Qed.

(** ** The [/clear-cache] handler of the earlier revision *)

Lemma TtlCache_size_clear {V} time (cache : TtlCache.t V) :
  TtlCache.size time (TtlCache.clear cache) = 0.
Proof. reflexivity. Qed.

Lemma TtlCache_size_expire {V} time (cache : TtlCache.t V) :
  TtlCache.size time (TtlCache.expire time cache) = TtlCache.size time cache.
Proof.
  unfold TtlCache.size, TtlCache.expire. cbn [TtlCache.entries].
  now rewrite filter_idem.
Qed.

(** A [/clear-cache] request that passes the handler's access check is
    answered 200 and leaves [TTL_CACHE] empty: "Cache cleared!" when it held
    something, and the different "Nothing to clear. Cache is empty!" when it
    did not. A request that fails the check is answered 401 and [TTL_CACHE]
    is left as it was. Without an API key every request passes. *)
Lemma clear_cache_when_allowed {V} API_KEY req time
    (TTL_CACHE : TtlCache.t V) :
  let resp := fst (Part000.clear_cache API_KEY req time TTL_CACHE) in
  let cache' := snd (Part000.clear_cache API_KEY req time TTL_CACHE) in
  (if Part000.hasAccess_clear API_KEY req then
     Part000.status resp = 200
     /\ Part000.success resp = true
     /\ TtlCache.size time cache' = 0
     /\ (if TtlCache.size time TTL_CACHE =? 0
         then resp = Part000.nothing_to_clear
         else resp = Part000.cache_cleared /\ TtlCache.entries cache' = [])
   else
     resp = Part000.unauthorized
     /\ Part000.status resp = 401
     /\ cache' = TTL_CACHE)
  /\ Part000.cache_cleared <> Part000.nothing_to_clear
  /\ Part000.hasAccess_clear None req = true.
Proof.
  cbv zeta. unfold Part000.clear_cache.
  split; [|split; [discriminate|reflexivity]].
  destruct (Part000.hasAccess_clear API_KEY req); cbn [negb fst snd].
  - destruct (TtlCache.size time TTL_CACHE =? 0) eqn:Hsize;
      cbn [negb fst snd].
    + rewrite TtlCache_size_expire. apply Z.eqb_eq in Hsize. now repeat split.
    + now repeat split.
  - now repeat split.
Qed.

(** With an API key set, a request without credentials is answered 401, and
    [TTL_CACHE] keeps its entry. *)
Lemma clear_cache_refuses :
  Part000.clear_cache (Some "secret")
    (Part000.mkRequest None (Some "curl/8.5.0") []) 1000
    (TtlCache.set 0 "video:abc" (Returns (A := option string) None)
       (TtlCache.new (30 * MINUTE)))
  = (Part000.mkJson 401 false None (Some "Unauthorized. Missing API key!"),
     TtlCache.mk 1800000 [("video:abc", (Returns None, 1800000))]).
Proof. reflexivity. Qed.

(** The [/] handler of the earlier revision answers a permitted request
    without candidates before its loop. *)
Lemma Part000_no_candidates API_KEY req :
  Part000.hasAccess API_KEY req = true ->
  Forall (fun kv => param_type (fst kv) = None) (Part000.query req) ->
  Part000.main_endpoint_early API_KEY req = Some Part000.server_running.
Proof.
  intros Hacc Hnone. apply parse_params_nil in Hnone.
  unfold Part000.main_endpoint_early. now rewrite Hacc, Hnone.
Qed.

(** ** The pipeline at work *)

Module Examples.

Import Sample.

(** The first candidate has no manifest, the second resolves: the redirect
    goes to the second one's manifest, each lookup was made once, and the
    third candidate was never dispatched. *)
Example fallback_to_second :
  exists st',
    main_endpoint w cfg [("v", "abc"); ("c", "@x"); ("x", "http://u")] st0
    = (Returns (Redirect "https://m.example/live.m3u8"), st')
    /\ trace st'
       = [Dispatched (mkParam v "abc");
          GotInfo "abc" (Returns None);
          Dispatched (mkParam c "@x");
          ResolvedURL "https://www.youtube.com/@x/live"
            (Returns (Some "live"));
          GotInfo "live" (Returns (Some "https://m.example/live.m3u8"))].
Proof. eexists. split; vm_compute; reflexivity. Qed.

(** Upstream exceptions and refused connections: every candidate is tried,
    the answer is the 404. *)
Example all_candidates_fail :
  exists st',
    main_endpoint w cfg
      [("v", "boom"); ("c", "@boom"); ("x", "http://down")] st0
    = (Returns NoValidStream, st')
    /\ dispatched (trace st')
       = [mkParam v "boom"; mkParam c "@boom"; mkParam x "http://down"]
    /\ length (List.filter is_failure (trace st')) = 3%nat.
Proof. eexists. split; [|split]; vm_compute; reflexivity. Qed.

(** An empty manifest URL counts as absent: the loop tests the string
    itself. *)
Example blank_manifest_is_passed_over :
  exists st',
    main_endpoint w cfg [("v", "blank"); ("v", "live")] st0
    = (Returns (Redirect "https://m.example/live.m3u8"), st').
Proof. eexists. vm_compute. reflexivity. Qed.

(** A handle without a live video: the id is asked for, the manifest is
    not. *)
Example handle_without_id :
  exists st',
    main_endpoint w cfg [("c", "@nobody")] st0 = (Returns NoValidStream, st')
    /\ trace st'
       = [Dispatched (mkParam c "@nobody");
          ResolvedURL "https://www.youtube.com/@nobody/live" (Returns None)].
Proof. eexists. split; vm_compute; reflexivity. Qed.

(** A [HEAD] probe that is refused is retried as [GET]; a [HEAD] probe that
    is answered 404 is not. *)
Example head_refused_get_answers :
  exists st',
    validateStream_fn w cfg "http://nohead/live.m3u8" st0
    = (Returns (Some "http://nohead/live.m3u8"), st')
    /\ map fst (probes (trace st'))
       = [(HEAD, "http://nohead/live.m3u8");
          (GET, "http://nohead/live.m3u8")].
Proof. eexists. split; vm_compute; reflexivity. Qed.

Example head_answers_404 :
  exists st',
    validateStream_fn w cfg "http://u/missing.m3u8" st0 = (Returns None, st')
    /\ map fst (probes (trace st')) = [(HEAD, "http://u/missing.m3u8")].
Proof. eexists. split; vm_compute; reflexivity. Qed.

(** Header instructions are taken out of the URL and sent as headers; the
    value of [a] keeps its second colon. *)
Example custom_headers_sent :
  exists st',
    validateStream_fn w cfg "http://h/p?custom-header=a:b:c,d:e&t=1" st0
    = (Returns (Some "http://h/p?t=1"), st')
    /\ probes (trace st')
       = [(HEAD, "http://h/p?t=1",
           <["d" := "e"]> (<["a" := "b:c"]> {[ "user-agent" := "UA" ]}))].
Proof. eexists. split; vm_compute; reflexivity. Qed.

(** The second request for the same URL is answered from the cache. *)
Example validated_once :
  exists r st1 st2,
    validateStream w cfg "http://u/live.m3u8" st0 = (r, st1)
    /\ validateStream w cfg "http://u/live.m3u8" st1 = (r, st2)
    /\ length (trace st1) = 1%nat /\ trace st2 = trace st1.
Proof.
  eexists _, _, _. split; [|split; [|split]]; vm_compute; reflexivity.
Qed.

End Examples.

(** ** The theorems at concrete inputs *)

Module Witnesses.

Import Sample.

Lemma validateStream_custom_headers_witness :
  new_URL w smuggling = Some smuggling_URL
  /\ smuggled <> []
  /\ Forall well_formed_pair smuggled
  /\ searchParams_get (customHeaderKey cfg) (searchParams smuggling_URL)
     = Some (header_instructions smuggled)
  /\ searchParams_get (customHeaderKey cfg) (searchParams cleaned_URL) = None
  /\ (NoDup (map fst smuggled) ->
      forall name val,
        In (name, val) smuggled -> smuggled_headers !! name = Some val)
  /\ exists r st' evs,
       validateStream_fn w cfg smuggling st0 = (Returns r, st')
       /\ trace st' = trace st0 ++ evs
       /\ (exists rest,
             probes evs = (HEAD, "http://h/p?t=1", smuggled_headers) :: rest)
       /\ Forall (fun p => snd (fst p) = "http://h/p?t=1"
                           /\ snd p = smuggled_headers)
                 (probes evs)
       /\ (r = Some "http://h/p?t=1" \/ r = None)
       /\ (forall status,
             last evs
             = Some (Fetched HEAD "http://h/p?t=1" smuggled_headers
                       (Responds status))
             \/ last evs
                = Some (Fetched GET "http://h/p?t=1" smuggled_headers
                          (Responds status)) ->
             status < 400 -> r = Some "http://h/p?t=1").
Proof.
  assert (Hurl : new_URL w smuggling = Some smuggling_URL) by reflexivity.
  assert (Hne : smuggled <> []) by discriminate.
  assert (Hwf : Forall well_formed_pair smuggled)
    by (repeat constructor; discriminate).
  assert (Hget : searchParams_get (customHeaderKey cfg)
                   (searchParams smuggling_URL)
                 = Some (header_instructions smuggled))
    by reflexivity.
  split; [exact Hurl|]. split; [exact Hne|]. split; [exact Hwf|].
  split; [exact Hget|].
  exact (validateStream_custom_headers w cfg _ _ _ st0 Hurl Hne Hwf Hget).
Defined.


Lemma cache_policies_swapped_witness :
  0 < STREAM_VALIDATION_CACHE_TTL cfg
  /\ STREAM_VALIDATION_CACHE (initial_state cfg)
     = LruCache.new (STREAM_VALIDATION_CACHE_TTL cfg * MINUTE)
  /\ VIDEO_INFO_CACHE (initial_state cfg)
     = TtlCache.new (VIDEO_INFO_CACHE_SIZE cfg * MINUTE)
  /\ (exists r st1 st2,
        validateStream late cfg "live" (initial_state cfg) = (Returns r, st1)
        /\ validateStream late cfg "live" st1 = (Returns r, st2)
        /\ trace st2 = trace st1)
  /\ (let first := GotInfo "live" (session_getInfo late [] "live") in
      exists r st1,
        getVideoInfo late cfg "live" (initial_state cfg) = (Returns r, st1)
        /\ trace st1 = [first]
        /\ (now late [] + VIDEO_INFO_CACHE_SIZE cfg * MINUTE
            <= now late [first] ->
            exists r' st2,
              getVideoInfo late cfg "live" st1 = (Returns r', st2)
              /\ trace st2
                 = [first;
                    GotInfo "live" (session_getInfo late [first] "live")])).
Proof.
  assert (Httl : 0 < STREAM_VALIDATION_CACHE_TTL cfg) by reflexivity.
  split; [exact Httl|].
  exact (cache_policies_swapped late cfg "live" Httl).
Defined.

End Witnesses.

(** * More properties *)

(** ** The candidate parser, segment by segment *)

Lemma append_nil_r s : s +:+ "" = s.
Proof.
  induction s as [|a s IH]; [reflexivity|]. now rewrite append_cons, IH.
Qed.

Lemma append_assoc s t u : (s +:+ t) +:+ u = s +:+ t +:+ u.
Proof.
  induction s as [|a s IH]; [reflexivity|]. now rewrite !append_cons, IH.
Qed.

Lemma fragments_snoc extras key val :
  fragments (extras ++ [(key, val)])
  = fragments extras +:+ "&" +:+ key +:+ "=" +:+ val.
Proof.
  induction extras as [|[k v'] extras IH]; cbn [app fragments].
  - now rewrite append_nil_l, append_nil_r.
  - rewrite IH. now rewrite !append_assoc.
Qed.

(** A pair only ever touches the last candidate, or adds one. *)
Lemma parse_step_frame before params kv :
  params <> [] ->
  parse_step (before ++ params) kv = before ++ parse_step params kv.
Proof.
  intros Hne. destruct kv as [key val].
  destruct (snoc_cases params) as [->|(ps & p & ->)]; [congruence|].
  destruct (param_type key) as [t|] eqn:Ht.
  - rewrite !(parse_step_recognized _ _ _ t Ht). now rewrite <- !app_assoc.
  - rewrite app_assoc, !parse_step_continuation by assumption.
    now rewrite <- !app_assoc.
Qed.

Lemma parse_step_nonempty params kv :
  params <> [] -> parse_step params kv <> [].
Proof.
  intros Hne. destruct kv as [key val].
  destruct (snoc_cases params) as [->|(ps & p & ->)]; [congruence|].
  destruct (param_type key) as [t|] eqn:Ht.
  - rewrite (parse_step_recognized _ _ _ t Ht). now destruct (ps ++ [p]).
  - rewrite parse_step_continuation by assumption. now destruct ps.
Qed.

Lemma fold_parse_step_frame entries before params :
  params <> [] ->
  fold_left parse_step entries (before ++ params)
  = before ++ fold_left parse_step entries params.
Proof.
  revert params. induction entries as [|kv entries IH]; intros params Hne;
    [reflexivity|].
  cbn [fold_left]. rewrite parse_step_frame by assumption.
  apply IH. now apply parse_step_nonempty.
Qed.

(** X1. A recognized key starts a segment of its own: what comes before it
    and what comes from it on are parsed independently of each other. In
    particular stray pairs in front of the first recognized key leave no
    mark. *)
Theorem parse_params_segments before key val after :
  is_Some (param_type key) ->
  parse_params (before ++ (key, val) :: after)
  = parse_params before ++ parse_params ((key, val) :: after).
Proof.
  intros [t Ht]. unfold parse_params. rewrite fold_left_app.
  cbn [fold_left]. rewrite !(parse_step_recognized _ _ _ t Ht).
  cbn [app]. now apply fold_parse_step_frame.
Qed.

Lemma parse_params_strays key val t extras :
  param_type key = Some t ->
  Forall (fun kv => param_type (fst kv) = None) extras ->
  parse_params ((key, val) :: extras)
  = [mkParam t (val +:+ fragments extras)].
Proof.
  intros Ht. induction extras as [|[k v'] extras IH] using rev_ind;
    intros Hall.
  - unfold parse_params. cbn [fold_left].
    rewrite (parse_step_recognized _ _ _ t Ht). cbn [app fragments].
    now rewrite append_nil_r.
  - apply Forall_app in Hall as [Hall Hk]. inversion_clear Hk as [|? ? Hk' _].
    cbn [fst] in Hk'.
    change ((key, val) :: extras ++ [(k, v')])
      with (((key, val) :: extras) ++ [(k, v')]).
    rewrite parse_params_snoc, (IH Hall).
    change [mkParam t (val +:+ fragments extras)]
      with ([] ++ [mkParam t (val +:+ fragments extras)]).
    rewrite (parse_step_continuation [] _ _ _ Hk'). cbn [app type value].
    now rewrite fragments_snoc, !append_assoc.
Qed.

(** X2. The stray pairs that follow a recognized pair are put back onto its
    value, each as [&key=value] and in their order, so that a URL value the
    outer parser cut at its [&]s is whole again; candidates before it are as
    they were. *)
Theorem parse_params_rejoins before key val t extras :
  param_type key = Some t ->
  Forall (fun kv => param_type (fst kv) = None) extras ->
  parse_params (before ++ (key, val) :: extras)
  = parse_params before ++ [mkParam t (val +:+ fragments extras)].
Proof.
  intros Ht Hall.
  rewrite <- (parse_params_strays key val t extras Ht Hall).
  unfold parse_params. rewrite fold_left_app.
  cbn [fold_left]. rewrite !(parse_step_recognized _ _ _ t Ht).
  cbn [app]. now apply fold_parse_step_frame.
Qed.

(** ** Header instructions, item by item *)

Lemma split_join sep items :
  items <> [] ->
  Forall (free_of sep) items ->
  JS.split sep (JS.join (String sep "") items) = items.
Proof.
  intros Hne Hfree. induction Hfree as [|item items Hitem _ IH];
    [congruence|].
  destruct items as [|item' items].
  - cbn [JS.join]. now apply split_free.
  - cbn [JS.join] in *. rewrite append_cons, append_nil_l.
    rewrite split_app by assumption. f_equal. now apply IH.
Qed.

Lemma add_custom_header_malformed headers item :
  malformed item -> add_custom_header headers item = headers.
Proof.
  unfold add_custom_header. intros [Hfree|[rest ->]].
  - rewrite split_free by assumption. cbn [length]. now rewrite andb_false_r.
  - rewrite append_cons, append_nil_l. cbn [JS.split].
    now rewrite Ascii.eqb_refl.
Qed.

(** X3. In the comma-separated header instructions, an item without a colon,
    or with nothing before its first colon, sets no header and disturbs
    nothing: the headers are those of the items around it. *)
Theorem malformed_instruction_is_skipped headers before item after :
  Forall (free_of ",") (before ++ item :: after) ->
  malformed item ->
  add_custom_headers headers (JS.join "," (before ++ item :: after))
  = fold_left add_custom_header (before ++ after) headers.
Proof.
  intros Hfree Hbad. unfold add_custom_headers.
  rewrite split_join by (assumption || now destruct before).
  rewrite !fold_left_app. cbn [fold_left].
  now rewrite add_custom_header_malformed.
Qed.

Lemma with_headers_app headers pairs pairs' :
  with_headers headers (pairs ++ pairs')
  = with_headers (with_headers headers pairs) pairs'.
Proof. unfold with_headers. apply fold_left_app. Qed.

Lemma with_headers_other headers pairs name :
  ~ In name (map fst pairs) ->
  with_headers headers pairs !! name = headers !! name.
Proof.
  unfold with_headers. revert headers.
  induction pairs as [|[n val] pairs IH]; intros headers Hnot;
    [reflexivity|].
  cbn [fold_left fst snd map In] in *. rewrite IH by tauto.
  apply lookup_insert_ne. intros ->. tauto.
Qed.

(** X4. Among the header instructions the last pair of a name decides: its
    value is what the probes carry under that name, whatever earlier pairs
    said; this holds for [user-agent] too, where it replaces the generated
    user agent. *)
Theorem later_instruction_wins cfg urlObj earlier name val later :
  Forall well_formed_pair (earlier ++ (name, val) :: later) ->
  ~ In name (map fst later) ->
  searchParams_get (customHeaderKey cfg) (searchParams urlObj)
  = Some (header_instructions (earlier ++ (name, val) :: later)) ->
  request_headers cfg urlObj !! name = Some val.
Proof.
  intros Hwf Hlast Hget.
  assert (Hne : earlier ++ (name, val) :: later <> [])
    by (destruct earlier; discriminate).
  destruct (request_headers_pairs cfg urlObj _ Hne Hwf Hget) as [-> _].
  rewrite with_headers_app. unfold with_headers at 1.
  cbn [fold_left fst snd]. fold (with_headers
    (<[name := val]> (with_headers {["user-agent" := USER_AGENT cfg]} earlier))
    later).
  rewrite with_headers_other by assumption. apply lookup_insert_eq.
Qed.

Lemma add_custom_header_keeps headers item name :
  is_Some (headers !! name) ->
  is_Some (add_custom_header headers item !! name).
Proof.
  intros Hsome. unfold add_custom_header.
  destruct (JS.split ":" item) as [|key valueParts]; [assumption|].
  destruct (_ && _); [|assumption].
  destruct (decide (key = name)) as [->|Hne].
  - rewrite lookup_insert_eq. eauto.
  - now rewrite lookup_insert_ne.
Qed.

Lemma request_headers_user_agent cfg urlObj :
  is_Some (request_headers cfg urlObj !! "user-agent").
Proof.
  unfold request_headers.
  assert (Hdefault : is_Some
            (({["user-agent" := USER_AGENT cfg]} : gmap string string)
               !! "user-agent"))
    by (rewrite lookup_singleton_eq; eauto).
  destruct (searchParams_get _ _) as [[|a s]|]; try assumption.
  unfold add_custom_headers.
  generalize dependent ({["user-agent" := USER_AGENT cfg]} : gmap string string).
  induction (JS.split "," (String a s)) as [|item items IH];
    intros headers Hsome; [assumption|].
  cbn [fold_left]. now apply IH, add_custom_header_keeps.
Qed.

(** X5. Whatever the URL and its header instructions, every probe of the
    validator carries a [user-agent] header. *)
Theorem probes_carry_user_agent w cfg url st :
  exists r st' evs,
    validateStream_fn w cfg url st = (Returns r, st')
    /\ trace st' = trace st ++ evs
    /\ Forall (fun p => is_Some (snd p !! "user-agent")) (probes evs).
Proof.
  destruct (validateStream_fn_does w cfg url st) as (r & evs & Hrun & Hv).
  exists r, (record_events evs st), evs.
  split; [assumption|]. split; [reflexivity|].
  unfold validation in Hv. destruct (new_URL w url) as [urlObj|].
  - cbv zeta in Hv. pose proof (request_headers_user_agent cfg urlObj) as Hua.
    destruct (fetch w (trace st) HEAD _ _) as [status|];
      [|destruct (fetch w _ GET _ _) as [status|]];
      destruct Hv as [-> _]; cbn; repeat constructor; assumption.
  - destruct Hv as [-> _]. constructor.
Qed.

(** ** The whole request *)

Section Requests.

Variable w : World.
Variable cfg : Config.

(** X6. Fallback chains compose: a chain followed by more candidates answers
    as the chain alone does, and goes on to the further candidates, from the
    state the chain left, exactly when the chain found no stream. *)
Theorem first_stream_chain params more st :
  first_stream w cfg (params ++ more) st
  = match first_stream w cfg params st with
    | (Returns NoValidStream, st') => first_stream w cfg more st'
    | answered => answered
    end.
Proof.
  revert st. induction params as [|param rest IH]; intros st; [reflexivity|].
  cbn [app first_stream]. unfold bind.
  destruct (getHslStream w cfg param st) as [[[[|a s]|]|] st1];
    try reflexivity; apply IH.
Qed.

Lemma validation_length url tr r evs :
  validation w cfg url tr r evs -> (length evs <= 2)%nat.
Proof.
  unfold validation. destruct (new_URL w url) as [urlObj|]; cbv zeta;
    [destruct (fetch w tr HEAD _ _) as [status|];
     [|destruct (fetch w _ GET _ _) as [status'|]]|];
    intros [-> _]; cbn; lia.
Qed.

Lemma upstream_calls_app evs1 evs2 :
  upstream_calls (evs1 ++ evs2) = upstream_calls evs1 ++ upstream_calls evs2.
Proof. apply List.filter_app. Qed.

Lemma upstream_calls_length evs :
  (length (upstream_calls evs) <= length evs)%nat.
Proof. apply List.filter_length_le. Qed.

(** One candidate costs at most two upstream calls: two probes, or an id
    lookup and a manifest lookup; a by-id candidate at most one. *)
Lemma getHslStream_calls param st :
  exists r st' evs,
    getHslStream w cfg param st = (Returns r, st')
    /\ trace st' = trace st ++ Dispatched param :: evs
    /\ dispatched evs = []
    /\ (length evs <= 2)%nat
    /\ (type param = v -> (length evs <= 1)%nat).
Proof.
  destruct param as [[| |] val].
  - destruct (getVideoInfo_run w cfg val
                (record_event (Dispatched (mkParam v val)) st))
      as (o & st' & evs & Hrun & Htr & Hevs).
    exists (or_absent o), st', evs.
    split; [exact (try_catch_absent _ _ _ _ Hrun)|].
    split; [rewrite Htr; cbn; now rewrite <- app_assoc|].
    split; [exact (proj1 (getVideoInfo_quiet w _ _ _ _ Hevs))|].
    destruct Hevs as [->|(r & _ & -> & _)]; cbn; split; intros; lia.
  - destruct (getHslStream_by_handle w cfg val st)
      as (o & st1 & evs1 & Hid & Htr1 & Hevs1 & Hrest).
    destruct (getVideoId_quiet w _ _ _ _ Hevs1) as [[Hd1 _] _].
    assert (Hlen1 : (length evs1 <= 1)%nat)
      by (destruct Hevs1 as [->|(r & _ & -> & _)]; cbn; lia).
    assert (Habsent :
              getHslStream w cfg (mkParam c val) st = (Returns None, st1) ->
              exists r st' evs,
                getHslStream w cfg (mkParam c val) st = (Returns r, st')
                /\ trace st' = trace st ++ Dispatched (mkParam c val) :: evs
                /\ dispatched evs = []
                /\ (length evs <= 2)%nat
                /\ (type (mkParam c val) = v -> (length evs <= 1)%nat)).
    { intros ->. exists None, st1, evs1. repeat split; try assumption; lia. }
    destruct o as [[[|a s]|]|].
    1, 3, 4: destruct Hrest as [Hrest _]; now apply Habsent.
    rewrite Hrest.
    destruct (getVideoInfo_run w cfg (String a s) st1)
      as (o & st' & evs & Hrun & Htr & Hevs).
    exists (or_absent o), st', (evs1 ++ evs).
    split; [exact (try_catch_absent _ _ _ _ Hrun)|].
    split; [rewrite Htr, Htr1, <- app_assoc; reflexivity|].
    split; [rewrite dispatched_app, Hd1;
            exact (proj1 (getVideoInfo_quiet w _ _ _ _ Hevs))|].
    rewrite length_app.
    destruct Hevs as [->|(r & _ & -> & _)]; cbn; split;
      try discriminate; lia.
  - destruct (validateStream_run w cfg val
                (record_event (Dispatched (mkParam x val)) st))
      as (o & st' & evs & Hrun & Htr & Hevs).
    exists (or_absent o), st', evs.
    split; [exact (try_catch_absent _ _ _ _ Hrun)|].
    split; [rewrite Htr; cbn; now rewrite <- app_assoc|].
    split; [exact (proj1 (validateStream_quiet w cfg _ _ _ _ Hevs))|].
    split; [|discriminate].
    destruct Hevs as [->|(r & _ & Hv)]; [cbn; lia|].
    exact (validation_length _ _ _ _ Hv).
Qed.

(** The loop never throws; it dispatches a front part of the candidates, all
    of them when it ends in the 404; and it never redirects to nothing. *)
Lemma first_stream_run params st :
  exists resp st' evs,
    first_stream w cfg params st = (Returns resp, st')
    /\ trace st' = trace st ++ evs
    /\ (exists rest, params = dispatched evs ++ rest)
    /\ (length (upstream_calls evs) <= 2 * length (dispatched evs))%nat
    /\ match resp with
       | Redirect location => location <> ""
       | NoValidStream => dispatched evs = params
       | ServerRunning _ _ => False
       end.
Proof.
  revert st. induction params as [|param rest IH]; intros st.
  - exists NoValidStream, st, []. rewrite app_nil_r.
    repeat split; cbn; eauto.
  - destruct (getHslStream_calls param st)
      as (r & st1 & evs1 & Hrun & Htr1 & Hd1 & Hlen1 & _).
    pose proof (upstream_calls_length evs1) as Hup1.
    destruct (JS.truthy r) eqn:Hr.
    + destruct r as [u|]; [|discriminate Hr].
      exists (Redirect u), st1, (Dispatched param :: evs1).
      split; [now apply first_stream_present|].
      split; [assumption|].
      change (Dispatched param :: evs1) with ([Dispatched param] ++ evs1).
      rewrite dispatched_app, upstream_calls_app, Hd1.
      split; [now exists rest|]. split; [cbn in *; lia|].
      now destruct u.
    + rewrite (first_stream_absent w cfg param rest r st st1 Hrun Hr).
      destruct (IH st1)
        as (resp & st' & evs & Hfs & Htr & [rest' Hrest] & Hlen & Hresp).
      exists resp, st', (Dispatched param :: evs1 ++ evs).
      split; [assumption|].
      split; [rewrite Htr, Htr1, <- app_assoc; reflexivity|].
      change (Dispatched param :: evs1 ++ evs)
        with ([Dispatched param] ++ evs1 ++ evs).
      rewrite !dispatched_app, !upstream_calls_app, !length_app, Hd1.
      cbn [dispatched omap app length upstream_calls List.filter is_upstream].
      split; [exists rest'; now rewrite Hrest at 1|].
      split; [cbn in *; lia|].
      destruct resp; try assumption. now rewrite Hresp.
Qed.

(** X7. The [/] handler never ends in an exception, and its three answers
    tell three cases apart: 200 "Server running!" exactly when the query has
    no recognized key, and then nothing else happened; a redirect always to a
    non-empty location; the 404 only after every candidate was dispatched,
    in order. *)
Theorem main_endpoint_answers entries st :
  exists resp st' evs,
    main_endpoint w cfg entries st = (Returns resp, st')
    /\ trace st' = trace st ++ evs
    /\ match resp with
       | ServerRunning _ _ => parse_params entries = [] /\ st' = st
       | Redirect location =>
           parse_params entries <> [] /\ location <> ""
       | NoValidStream =>
           parse_params entries <> []
           /\ dispatched evs = parse_params entries
       end.
Proof.
  unfold main_endpoint.
  destruct (parse_params entries) as [|param rest] eqn:Hparse.
  - cbn [length]. unfold server_running. eexists _, st, [].
    rewrite app_nil_r. repeat split.
  - replace (Z.of_nat (length (param :: rest)) =? 0) with false
      by (symmetry; apply Z.eqb_neq; cbn [length]; lia).
    destruct (first_stream_run (param :: rest) st)
      as (resp & st' & evs & Hrun & Htr & _ & _ & Hresp).
    exists resp, st', evs. split; [assumption|]. split; [assumption|].
    destruct resp; [contradiction|now split|now split].
Qed.

(** X8. A request costs at most two upstream calls for each candidate it
    dispatches, and it dispatches a front part of its candidates: never more
    than twice as many calls as the query has recognized keys. *)
Theorem main_endpoint_upstream_bound entries st :
  exists resp st' evs,
    main_endpoint w cfg entries st = (Returns resp, st')
    /\ trace st' = trace st ++ evs
    /\ (exists rest, parse_params entries = dispatched evs ++ rest)
    /\ (length (upstream_calls evs) <= 2 * length (dispatched evs))%nat
    /\ (length (upstream_calls evs)
        <= 2 * length (parse_params entries))%nat.
Proof.
  unfold main_endpoint.
  destruct (parse_params entries) as [|param rest] eqn:Hparse.
  - cbn [length]. unfold server_running. eexists _, st, [].
    rewrite app_nil_r. repeat split; cbn; eauto.
  - replace (Z.of_nat (length (param :: rest)) =? 0) with false
      by (symmetry; apply Z.eqb_neq; cbn [length]; lia).
    destruct (first_stream_run (param :: rest) st)
      as (resp & st' & evs & Hrun & Htr & [rest' Hrest] & Hlen & _).
    exists resp, st', evs. split; [assumption|]. split; [assumption|].
    split; [now exists rest'|]. split; [assumption|].
    rewrite Hrest, length_app. lia.
Qed.

End Requests.

(** ** Who gets in *)

Lemma startsWith_spec p s :
  JS.startsWith p s = true <-> exists rest, s = p +:+ rest.
Proof.
  revert s. induction p as [|a p IH]; intros s; cbn [JS.startsWith].
  - split; [intros _; now exists s|reflexivity].
  - destruct s as [|b s].
    + split; [discriminate|]. intros [rest Hrest]. discriminate Hrest.
    + rewrite andb_true_iff, IH. split.
      * intros [Hab [rest ->]]. apply Ascii.eqb_eq in Hab as ->.
        now exists rest.
      * intros [rest Hrest]. rewrite append_cons in Hrest.
        injection Hrest as -> ->. split; [apply Ascii.eqb_refl|eauto].
Qed.

Lemma includes_spec p s :
  JS.includes p s = true
  <-> exists before after, s = before +:+ p +:+ after.
Proof.
  induction s as [|a s IH].
  - cbn [JS.includes]. rewrite orb_false_r, startsWith_spec. split.
    + intros [rest ->]. now exists "", rest.
    + intros ([|b before] & after & Hs); [now exists after|].
      discriminate Hs.
  - cbn [JS.includes]. rewrite orb_true_iff, startsWith_spec, IH. split.
    + intros [[rest ->]|(before & after & ->)].
      * now exists "", rest.
      * now exists (String a before), after.
    + intros ([|b before] & after & Hs).
      * left. now exists after.
      * right. rewrite append_cons in Hs. injection Hs as _ ->. eauto.
Qed.

(** X9. With an API key set, the middleware's token check accepts exactly
    the tokens that contain the key somewhere, with anything before and
    after it; without a key (or with an empty one) it accepts every token. *)
Theorem verifyToken_accepts API_KEY token :
  verifyToken API_KEY token = true
  <-> JS.truthy API_KEY = false
      \/ exists key before after,
           API_KEY = Some key /\ token = before +:+ key +:+ after.
Proof.
  unfold verifyToken. destruct API_KEY as [[|a s]|]; cbn [JS.truthy].
  - split; [now left|reflexivity].
  - rewrite includes_spec. split.
    + intros (before & after & ->). right. now exists (String a s), before, after.
    + intros [Hf|(key & before & after & [= <-] & ->)]; [discriminate|eauto].
  - split; [now left|reflexivity].
Qed.

Lemma append_inv_nil s t : s = s +:+ t -> t = "".
Proof.
  induction s as [|a s IH]; [intros Hs; symmetry; exact Hs|].
  rewrite append_cons. intros [= Hs]. now apply IH.
Qed.

Lemma eqb_append_X s : String.eqb s (s +:+ "X") = false.
Proof.
  apply String.eqb_neq. intros Hs. now apply append_inv_nil in Hs.
Qed.

Lemma eqb_X_append s : String.eqb (s +:+ "X") s = false.
Proof.
  apply String.eqb_neq. intros Hs. symmetry in Hs.
  now apply append_inv_nil in Hs.
Qed.

(** X10. In the earlier revision the two endpoints ask for different
    [Authorization] headers: with the API key [K] set and no [User-Agent],
    [Bearer K] opens [/] and not [/clear-cache], and [Bearer KX] opens
    [/clear-cache] and not [/]; a [User-Agent] that contains [KX] opens
    both. *)
Theorem endpoints_ask_different_credentials a s entries user_agent :
  let K := String a s in
  let by_header h := Part000.mkRequest (Some h) None entries in
  (Part000.hasAccess (Some K) (by_header ("Bearer " +:+ K)) = true
   /\ Part000.hasAccess_clear (Some K) (by_header ("Bearer " +:+ K)) = false)
  /\ (Part000.hasAccess_clear (Some K) (by_header ("Bearer " +:+ K +:+ "X"))
      = true
      /\ Part000.hasAccess (Some K) (by_header ("Bearer " +:+ K +:+ "X"))
         = false)
  /\ (forall authorization,
        JS.includes (K +:+ "X") user_agent = true ->
        let req :=
          Part000.mkRequest authorization (Some user_agent) entries in
        Part000.hasAccess (Some K) req = true
        /\ Part000.hasAccess_clear (Some K) req = true).
Proof.
  cbv zeta. unfold Part000.hasAccess, Part000.hasAccess_clear,
    Part000.header_is, Part000.header_includes.
  cbn [Part000.Authorization Part000.User_Agent].
  rewrite !String.eqb_refl, !orb_false_r.
  change ("Bearer " +:+ String a s +:+ "X")
    with (("Bearer " +:+ String a s) +:+ "X") at 1 3.
  rewrite <- (append_assoc "Bearer " (String a s) "X").
  rewrite eqb_append_X, eqb_X_append.
  split; [now split|]. split; [now split|].
  intros authorization Hua. rewrite Hua, !orb_true_r. split; [|reflexivity].
  apply includes_spec in Hua as (before & after & ->).
  assert (Hin : JS.includes (String a s)
                  (before +:+ (String a s +:+ "X") +:+ after) = true).
  { apply includes_spec. exists before, ("X" +:+ after).
    now rewrite !append_assoc. }
  rewrite Hin. apply orb_true_r.
Qed.

Lemma TtlCache_size_zero {V} time (cache : TtlCache.t V) :
  TtlCache.size time cache = 0 ->
  TtlCache.entries (TtlCache.expire time cache) = [].
Proof.
  unfold TtlCache.size, JSMap.size. intros Hsize.
  destruct (TtlCache.entries (TtlCache.expire time cache));
    [reflexivity|cbn [length] in Hsize; lia].
Qed.

(** X11. Clearing twice: after a permitted [/clear-cache] request the cache
    has no entry left, whichever answer was given, and a second permitted
    request, at any time, finds "Nothing to clear. Cache is empty!". *)
Theorem clear_cache_twice {V} API_KEY req req' time time'
    (TTL_CACHE : TtlCache.t V) :
  Part000.hasAccess_clear API_KEY req = true ->
  Part000.hasAccess_clear API_KEY req' = true ->
  let cleared := snd (Part000.clear_cache API_KEY req time TTL_CACHE) in
  TtlCache.entries cleared = []
  /\ Part000.clear_cache API_KEY req' time' cleared
     = (Part000.nothing_to_clear, cleared).
Proof.
  intros Hacc Hacc'. cbv zeta.
  assert (Hempty : TtlCache.entries
                     (snd (Part000.clear_cache API_KEY req time TTL_CACHE))
                   = []).
  { unfold Part000.clear_cache. rewrite Hacc. cbn [negb].
    destruct (TtlCache.size time TTL_CACHE =? 0) eqn:Hsize;
      cbn [negb snd]; [|reflexivity].
    apply Z.eqb_eq in Hsize. now apply TtlCache_size_zero. }
  split; [assumption|].
  destruct (snd (Part000.clear_cache API_KEY req time TTL_CACHE))
    as [ttl entries]. cbn [TtlCache.entries] in Hempty. subst entries.
  unfold Part000.clear_cache. now rewrite Hacc'.
Qed.

(** ** What the stores remember *)

Section MemoizeSteps.

Variable w : World.
Context {C : Type} `{MemoizationCache C Cached}.
Variable slot : Slot C.
Hypothesis lawful : lawful_slot slot.
Variable fn : string -> M (option string).
Variable getKey : string -> string.
Variable arg : string.
Variable does : list Event -> option string -> list Event -> Prop.

Hypothesis fn_does :
  forall st, exists r evs,
    fn arg st = (Returns r, record_events evs st) /\ does (trace st) r evs.

(** A hit: the stored promise is the answer, and only the store moves. *)
Lemma memoize_hit st c1 promise c2 :
  cache_has (now w (trace st)) (getKey arg) (peek slot st) = (true, c1) ->
  cache_get (now w (trace st)) (getKey arg) c1 = (Some promise, c2) ->
  memoize w fn slot getKey arg st = (promise, poke slot c2 st).
Proof. intros Hhas Hget. unfold memoize. now rewrite Hhas, Hget. Qed.

(** A miss: one call of [fn], whose result is stored with the time of the
    call. *)
Lemma memoize_miss st c1 :
  cache_has (now w (trace st)) (getKey arg) (peek slot st) = (false, c1) ->
  exists r evs,
    memoize w fn slot getKey arg st
    = (Returns r,
       poke slot (cache_set (now w (trace st)) (getKey arg) (Returns r) c1)
         (record_events evs st))
    /\ does (trace st) r evs.
Proof.
  intros Hhas. unfold memoize. rewrite Hhas.
  destruct (fn_does (poke slot c1 st)) as (r & evs & -> & Hdoes).
  rewrite (slot_trace slot lawful) in Hdoes.
  exists r, evs. split; [|assumption].
  rewrite (slot_peek_record slot lawful), (slot_peek_poke slot lawful).
  now rewrite !(slot_poke_record slot lawful), (slot_poke_poke slot lawful).
Qed.

End MemoizeSteps.

Section MapFacts2.

Context {V : Type}.
Implicit Types (m : JSMap.t V).

Lemma JSMap_get_None k m :
  JSMap.get k m = None <-> ~ In k (map fst m).
Proof.
  induction m as [|[k' v'] m IH]; cbn; [tauto|].
  destruct (String.eqb_spec k' k) as [->|Hne].
  - split; [discriminate|tauto].
  - rewrite IH. tauto.
Qed.

Lemma JSMap_set_fresh k val m :
  JSMap.get k m = None -> JSMap.set k val m = m ++ [(k, val)].
Proof.
  induction m as [|[k' v'] m IH]; cbn; [reflexivity|].
  destruct (String.eqb k' k); [discriminate|]. intros Hget.
  now rewrite IH.
Qed.

Lemma JSMap_delete_absent k m :
  JSMap.get k m = None -> JSMap.delete k m = m.
Proof.
  induction m as [|[k' v'] m IH]; cbn; [reflexivity|].
  destruct (String.eqb k' k); [discriminate|]. intros Hget.
  now rewrite IH.
Qed.

Lemma JSMap_get_snoc k val m :
  JSMap.get k m = None -> JSMap.get k (m ++ [(k, val)]) = Some val.
Proof.
  induction m as [|[k' v'] m IH]; cbn.
  - now rewrite String.eqb_refl.
  - destruct (String.eqb k' k); [discriminate|exact IH].
Qed.

Lemma JSMap_get_set_other k k' val m :
  k <> k' -> JSMap.get k' (JSMap.set k val m) = JSMap.get k' m.
Proof.
  intros Hne. induction m as [|[k0 v0] m IH]; cbn.
  - destruct (String.eqb_spec k k'); [congruence|reflexivity].
  - destruct (String.eqb_spec k0 k) as [->|Hk0]; cbn.
    + destruct (String.eqb_spec k k'); [congruence|reflexivity].
    + destruct (String.eqb k0 k'); [reflexivity|exact IH].
Qed.

Lemma JSMap_get_filter_None (f : string * V -> bool) k m :
  JSMap.get k m = None -> JSMap.get k (List.filter f m) = None.
Proof.
  rewrite !JSMap_get_None. intros Hnot Hin. apply Hnot.
  apply in_map_iff in Hin as (e & <- & He). apply List.filter_In in He.
  apply in_map. tauto.
Qed.

End MapFacts2.

Section MapStore.

Variable w : World.
Variable slot : Slot (JSMap.t Cached).
Hypothesis lawful : lawful_slot slot.
Hypothesis poke_peek : forall st, poke slot (peek slot st) st = st.
Variable fn : string -> M (option string).
Variable getKey : string -> string.
Variable arg : string.
Variable does : list Event -> option string -> list Event -> Prop.

Hypothesis fn_does :
  forall st, exists r evs,
    fn arg st = (Returns r, record_events evs st) /\ does (trace st) r evs.

(** On a plain [Map] a call that has been made is answered from the store
    ever after, and leaves everything as it is. *)
Lemma memoize_Map_again st :
  memoize w fn slot getKey arg (snd (memoize w fn slot getKey arg st))
  = memoize w fn slot getKey arg st.
Proof.
  destruct (JSMap.get (getKey arg) (peek slot st)) as [promise|] eqn:Hget.
  - assert (Hhit : memoize w fn slot getKey arg st = (promise, st)).
    { rewrite <- (poke_peek st) at 2.
      apply (memoize_hit w slot fn getKey arg st (peek slot st));
        cbn; unfold JSMap.has; now rewrite Hget. }
    rewrite Hhit. cbn [snd]. exact Hhit.
  - destruct (memoize_miss w slot lawful fn getKey arg does fn_does
                st (peek slot st)) as (r & evs & Hrun & _).
    { cbn. unfold JSMap.has. now rewrite Hget. }
    rewrite Hrun. cbn [snd].
    set (st1 := poke slot _ _).
    rewrite <- (poke_peek st1) at 2.
    assert (Hpeek : peek slot st1
                    = JSMap.set (getKey arg) (Returns r) (peek slot st))
      by (unfold st1; now rewrite (slot_peek_poke slot lawful)).
    apply (memoize_hit w slot fn getKey arg st1 (peek slot st1));
      rewrite Hpeek; cbn; unfold JSMap.has; now rewrite JSMap_get_set.
Qed.

End MapStore.

Lemma validateStream_Map_poke_peek st :
  poke validateStream_Map_slot (peek validateStream_Map_slot st) st = st.
Proof. now destruct st. Qed.

Lemma getVideoInfo_Map_poke_peek st :
  poke getVideoInfo_Map_slot (peek getVideoInfo_Map_slot st) st = st.
Proof. now destruct st. Qed.

Lemma getVideoId_Map_poke_peek st :
  poke getVideoId_Map_slot (peek getVideoId_Map_slot st) st = st.
Proof. now destruct st. Qed.

(** X12. With both cache settings at 0, [USE_CACHE] is false and each of the
    three functions is memoized on the plain [Map] that [memoize] makes for
    itself: a call that has been made is then answered from that [Map]
    whenever it is made again, without a new upstream call and whatever the
    clock says, and the process is left exactly as it was. *)
Theorem switched_off_cache_remembers w cfg arg st :
  USE_CACHE cfg = false ->
  validateStream w cfg arg (snd (validateStream w cfg arg st))
  = validateStream w cfg arg st
  /\ getVideoInfo w cfg arg (snd (getVideoInfo w cfg arg st))
     = getVideoInfo w cfg arg st
  /\ getVideoId w cfg arg (snd (getVideoId w cfg arg st))
     = getVideoId w cfg arg st.
Proof.
  intros Hoff. unfold validateStream, getVideoInfo, getVideoId.
  rewrite Hoff. split; [|split].
  - exact (memoize_Map_again w _ validateStream_Map_lawful
             validateStream_Map_poke_peek _ _ arg _
             (validateStream_fn_does w cfg arg) st).
  - exact (memoize_Map_again w _ getVideoInfo_Map_lawful
             getVideoInfo_Map_poke_peek _ _ arg _
             (getVideoInfo_fn_does w arg) st).
  - exact (memoize_Map_again w _ getVideoId_Map_lawful
             getVideoId_Map_poke_peek _ _ arg _
             (getVideoId_fn_does w arg) st).
Qed.

Section TtlStore.

Variable w : World.
Variable slot : Slot (TtlCache.t Cached).
Hypothesis lawful : lawful_slot slot.
Variable fn : string -> M (option string).
Variable getKey : string -> string.
Variable arg : string.
Variable does : list Event -> option string -> list Event -> Prop.

Hypothesis fn_does :
  forall st, exists r evs,
    fn arg st = (Returns r, record_events evs st) /\ does (trace st) r evs.

(** What a memoized call on a [TtlCache] leaves in the store: on a hit the
    entries that were alive, on a miss those and the new one. *)
Lemma memoize_Ttl_store st :
  let time := now w (trace st) in
  let alive :=
    List.filter (TtlCache.live time) (TtlCache.entries (peek slot st)) in
  let ttl := TtlCache.defaultTtl (peek slot st) in
  exists o st1 evs,
    memoize w fn slot getKey arg st = (o, st1)
    /\ trace st1 = trace st ++ evs
    /\ TtlCache.defaultTtl (peek slot st1) = ttl
    /\ ((exists expiry,
           JSMap.get (getKey arg) alive = Some (o, expiry)
           /\ evs = []
           /\ TtlCache.entries (peek slot st1) = alive)
        \/ (exists r,
              JSMap.get (getKey arg) alive = None
              /\ o = Returns r
              /\ does (trace st) r evs
              /\ TtlCache.entries (peek slot st1)
                 = JSMap.set (getKey arg) (Returns r, time + ttl) alive)).
Proof.
  cbv zeta.
  destruct (JSMap.get (getKey arg)
              (List.filter (TtlCache.live (now w (trace st)))
                 (TtlCache.entries (peek slot st))))
    as [[promise expiry]|] eqn:Hget.
  - exists promise, (poke slot
                       (TtlCache.expire (now w (trace st))
                          (TtlCache.expire (now w (trace st))
                             (peek slot st))) st), [].
    split.
    + apply (memoize_hit w slot fn getKey arg st
               (TtlCache.expire (now w (trace st)) (peek slot st))).
      * cbn. unfold TtlCache.has, JSMap.has. cbn [TtlCache.expire
          TtlCache.entries]. now rewrite Hget.
      * cbn. unfold TtlCache.get. cbn [TtlCache.expire TtlCache.entries].
        now rewrite filter_idem, Hget.
    + rewrite (slot_trace slot lawful), (slot_peek_poke slot lawful),
        app_nil_r.
      cbn [TtlCache.expire TtlCache.entries TtlCache.defaultTtl].
      rewrite filter_idem. split; [reflexivity|]. split; [reflexivity|].
      left. exists expiry. now repeat split.
  - destruct (memoize_miss w slot lawful fn getKey arg does fn_does st
                (TtlCache.expire (now w (trace st)) (peek slot st)))
      as (r & evs & Hrun & Hdoes).
    { cbn. unfold TtlCache.has, JSMap.has. cbn [TtlCache.expire
        TtlCache.entries]. now rewrite Hget. }
    eexists (Returns r), _, evs. split; [exact Hrun|].
    rewrite (slot_trace slot lawful), (slot_peek_poke slot lawful).
    split; [reflexivity|]. split; [reflexivity|]. right. exists r.
    split; [reflexivity|]. split; [reflexivity|]. split; [assumption|].
    cbn. unfold TtlCache.set.
    cbn [TtlCache.expire TtlCache.entries TtlCache.defaultTtl].
    now rewrite filter_idem.
Qed.

(** A call that went upstream keeps its outcome for [defaultTtl]
    milliseconds from the time it started: at any later point [st2] of the
    process at which the store is as the call left it and the clock is
    short of that, the call is answered from the store. *)
Lemma memoize_Ttl_later st st2 :
  trace (snd (memoize w fn slot getKey arg st)) <> trace st ->
  peek slot st2 = peek slot (snd (memoize w fn slot getKey arg st)) ->
  now w (trace st2) < now w (trace st) + TtlCache.defaultTtl (peek slot st) ->
  exists st3,
    memoize w fn slot getKey arg st2
    = (fst (memoize w fn slot getKey arg st), st3)
    /\ trace st3 = trace st2.
Proof.
  destruct (memoize_Ttl_store st)
    as (o & st1 & evs & -> & Htr & Httl & Hstore).
  cbn [fst snd]. intros Hwent Hsame Hwindow.
  destruct Hstore as [(expiry & _ & -> & _)|(r & _ & -> & _ & Hentries)].
  { now rewrite app_nil_r in Htr. }
  assert (Hget : JSMap.get (getKey arg)
                   (List.filter (TtlCache.live (now w (trace st2)))
                      (TtlCache.entries (peek slot st2)))
                 = Some (Returns r,
                         now w (trace st)
                         + TtlCache.defaultTtl (peek slot st))).
  { rewrite Hsame, Hentries.
    apply EventLoopFacts.JSMap_get_filter; [apply JSMap_get_set|].
    unfold TtlCache.live. cbn [snd]. now apply Z.ltb_lt. }
  eexists. split.
  - apply (memoize_hit w slot fn getKey arg st2
             (TtlCache.expire (now w (trace st2)) (peek slot st2))).
    + cbn. unfold TtlCache.has, JSMap.has. cbn [TtlCache.expire
        TtlCache.entries]. now rewrite Hget.
    + cbn. unfold TtlCache.get. cbn [TtlCache.expire TtlCache.entries].
      now rewrite filter_idem, Hget.
  - apply (slot_trace slot lawful).
Qed.

End TtlStore.

(** X13. While caching is on, a manifest or id lookup that went upstream
    keeps its outcome, absent results included, for [defaultTtl]
    milliseconds from the time the call started, for a [defaultTtl] the
    runtime's timers can hold. Time passes between the call and the next:
    at any later point [st2] of the process, whatever has happened and
    whatever the clock says there, if the store is as the call left it and
    the clock is short of the call's time plus [defaultTtl], the same
    lookup is answered from the store, with the same outcome and no
    upstream call. *)
Theorem lookup_repeats_within_ttl w cfg (f : string -> M (option string))
    arg st st2 :
  USE_CACHE cfg = true ->
  f = getVideoInfo w cfg \/ f = getVideoId w cfg ->
  TtlCache.defaultTtl (VIDEO_INFO_CACHE st) <= TIMEOUT_MAX ->
  trace (snd (f arg st)) <> trace st ->
  VIDEO_INFO_CACHE st2 = VIDEO_INFO_CACHE (snd (f arg st)) ->
  now w (trace st2)
  < now w (trace st) + TtlCache.defaultTtl (VIDEO_INFO_CACHE st) ->
  exists st3,
    f arg st2 = (fst (f arg st), st3)
    /\ trace st3 = trace st2.
Proof.
  intros Hon [-> | ->] _; unfold getVideoInfo, getVideoId; rewrite Hon.
  - exact (memoize_Ttl_later w _ VIDEO_INFO_CACHE_lawful _ _ arg _
             (getVideoInfo_fn_does w arg) st st2).
  - exact (memoize_Ttl_later w _ VIDEO_INFO_CACHE_lawful _ _ arg _
             (getVideoId_fn_does w arg) st st2).
Qed.

Lemma video_key_is_no_resolve_key a b : "video:" +:+ a <> "resolve:" +:+ b.
Proof. discriminate. Qed.

(** X14. The two lookups share one store but never each other's entries:
    when the store has nothing under the id-lookup key of a string, a
    manifest lookup for that same string does not change that, and the id
    lookup that follows still goes upstream. *)
Theorem manifest_entry_is_no_id_entry w cfg arg st :
  USE_CACHE cfg = true ->
  JSMap.get ("resolve:" +:+ arg) (TtlCache.entries (VIDEO_INFO_CACHE st))
  = None ->
  let st1 := snd (getVideoInfo w cfg arg st) in
  exists o st2,
    getVideoId w cfg arg st1 = (o, st2)
    /\ trace st2
       = trace st1 ++ [ResolvedURL arg (session_resolveURL w (trace st1) arg)].
Proof.
  intros Hon Hnone. cbv zeta. unfold getVideoInfo, getVideoId. rewrite Hon.
  destruct (memoize_Ttl_store w _ VIDEO_INFO_CACHE_lawful _
              (fun vid => "video:" +:+ vid) arg _
              (getVideoInfo_fn_does w arg) st)
    as (o1 & st1 & evs1 & -> & _ & _ & Hstore).
  cbn [snd peek VIDEO_INFO_CACHE_slot] in *.
  assert (Hnone1 : JSMap.get ("resolve:" +:+ arg)
                     (List.filter (TtlCache.live (now w (trace st1)))
                        (TtlCache.entries (VIDEO_INFO_CACHE st1)))
                   = None).
  { apply JSMap_get_filter_None.
    destruct Hstore as [(_ & _ & _ & ->)|(r & _ & _ & _ & ->)].
    - now apply JSMap_get_filter_None.
    - rewrite JSMap_get_set_other by apply video_key_is_no_resolve_key.
      now apply JSMap_get_filter_None. }
  destruct (memoize_miss w _ VIDEO_INFO_CACHE_lawful _
              (fun url => "resolve:" +:+ url) arg _
              (getVideoId_fn_does w arg) st1
              (TtlCache.expire (now w (trace st1)) (VIDEO_INFO_CACHE st1)))
    as (r & evs & Hrun & -> & _).
  { cbn. unfold TtlCache.has, JSMap.has. cbn [TtlCache.expire
      TtlCache.entries]. now rewrite Hnone1. }
  eexists _, _. split; [exact Hrun|]. reflexivity.
Qed.

Section MapOrder.

Context {V : Type}.
Implicit Types (m : JSMap.t V).

Lemma JSMap_delete_keys k m :
  forall k', In k' (map fst (JSMap.delete k m)) -> In k' (map fst m).
Proof.
  induction m as [|[k0 v0] m IH]; cbn; [tauto|].
  destruct (String.eqb k0 k); cbn; intros k' Hin; [tauto|].
  destruct Hin; [tauto|]. right. now apply IH.
Qed.

Lemma JSMap_delete_unique k m :
  unique_keys m -> unique_keys (JSMap.delete k m).
Proof.
  unfold unique_keys. induction m as [|[k0 v0] m IH]; cbn; [tauto|].
  intros Hnd. apply NoDup_cons in Hnd as [Hfresh Hnd].
  destruct (String.eqb k0 k); [assumption|]. cbn. apply NoDup_cons.
  split; [|now apply IH].
  intros Hin. apply Hfresh. apply list_elem_of_In.
  apply list_elem_of_In in Hin. now apply JSMap_delete_keys in Hin.
Qed.

Lemma JSMap_delete_length k m :
  (length (JSMap.delete k m) <= length m)%nat
  /\ (JSMap.get k m <> None -> S (length (JSMap.delete k m)) = length m).
Proof.
  induction m as [|[k0 v0] m [IHle IHeq]]; cbn; [split; [lia|congruence]|].
  destruct (String.eqb k0 k); cbn; split; try lia.
  intros Hget. now rewrite IHeq.
Qed.

Lemma JSMap_set_unique k val m :
  unique_keys m -> unique_keys (JSMap.set k val m).
Proof.
  unfold unique_keys. induction m as [|[k0 v0] m IH]; cbn.
  - intros _. apply NoDup_cons. split; [apply not_elem_of_nil|constructor].
  - intros Hnd. apply NoDup_cons in Hnd as [Hfresh Hnd].
    destruct (String.eqb_spec k0 k) as [->|Hne]; cbn.
    + now apply NoDup_cons.
    + apply NoDup_cons. split; [|now apply IH].
      intros Hin. apply Hfresh. clear IH Hnd Hfresh.
      induction m as [|[k1 v1] m IH]; cbn in *.
      * apply list_elem_of_In in Hin. cbn in Hin.
        destruct Hin as [Heq|[]]. now subst.
      * destruct (String.eqb k1 k); cbn in Hin; [exact Hin|].
        apply elem_of_cons in Hin as [->|Hin]; [now left|].
        right. now apply IH.
Qed.

Lemma JSMap_set_length k val m :
  (length (JSMap.set k val m) <= S (length m))%nat.
Proof.
  induction m as [|[k0 v0] m IH]; cbn; [lia|].
  destruct (String.eqb k0 k); cbn; lia.
Qed.

Lemma unique_keys_tl m : unique_keys m -> unique_keys (tl m).
Proof.
  unfold unique_keys. destruct m as [|e m]; [tauto|]. cbn.
  intros Hnd. now apply NoDup_cons in Hnd.
Qed.

(** Moving a key to the most recently used end keeps the keys apart and
    adds at most one entry, none when the key was there. *)
Lemma setMostRecentlyUsed_order k val (cache : LruCache.t V) :
  let cache' := LruCache.setMostRecentlyUsed k val cache in
  LruCache.maxSize cache' = LruCache.maxSize cache
  /\ (unique_keys (LruCache.entries cache) ->
      unique_keys (LruCache.entries cache'))
  /\ LruCache.size cache' <= LruCache.size cache + 1
  /\ (JSMap.get k (LruCache.entries cache) <> None ->
      LruCache.size cache' <= LruCache.size cache)
  /\ JSMap.get k (LruCache.entries cache') = Some val.
Proof.
  cbv zeta. unfold LruCache.setMostRecentlyUsed, LruCache.size, JSMap.size.
  cbn [LruCache.entries LruCache.maxSize].
  pose proof (JSMap_delete_length k (LruCache.entries cache)) as [Hle Heq].
  pose proof (JSMap_set_length k val
                (JSMap.delete k (LruCache.entries cache))) as Hset.
  split; [reflexivity|].
  split; [intros Hu; now apply JSMap_set_unique, JSMap_delete_unique|].
  split; [lia|]. split; [|apply JSMap_get_set].
  intros Hget. specialize (Heq Hget). lia.
Qed.

Lemma LruCache_has_order k (cache : LruCache.t V) :
  within_capacity cache -> within_capacity (snd (LruCache.has k cache)).
Proof.
  unfold LruCache.has.
  destruct (JSMap.get k (LruCache.entries cache)) as [val|] eqn:Hget;
    [|tauto].
  cbn [snd]. intros [Hu Hsize].
  destruct (setMostRecentlyUsed_order k val cache)
    as (Hmax & Hunique & _ & Hsame & _).
  split; [now apply Hunique|]. rewrite Hmax.
  assert (JSMap.get k (LruCache.entries cache) <> None) by congruence.
  specialize (Hsame H). lia.
Qed.

Lemma LruCache_get_order k (cache : LruCache.t V) :
  within_capacity cache -> within_capacity (snd (LruCache.get k cache)).
Proof.
  unfold LruCache.get.
  destruct (JSMap.get k (LruCache.entries cache)) as [val|] eqn:Hget;
    [|tauto].
  cbn [snd]. intros [Hu Hsize].
  destruct (setMostRecentlyUsed_order k val cache)
    as (Hmax & Hunique & _ & Hsame & _).
  split; [now apply Hunique|]. rewrite Hmax.
  assert (JSMap.get k (LruCache.entries cache) <> None) by congruence.
  specialize (Hsame H). lia.
Qed.

Lemma LruCache_set_order k val (cache : LruCache.t V) :
  within_capacity cache -> within_capacity (LruCache.set k val cache).
Proof.
  intros [Hu Hsize]. unfold LruCache.set, LruCache.pruneToMaxSize.
  destruct (setMostRecentlyUsed_order k val cache)
    as (Hmax & Hunique & Hone & _ & _).
  specialize (Hunique Hu).
  set (moved := LruCache.setMostRecentlyUsed k val cache) in *.
  change (JSMap.size (LruCache.entries moved)) with (LruCache.size moved).
  destruct (Z.ltb_spec (LruCache.maxSize moved) (LruCache.size moved))
    as [Hover|Hfits].
  - split; cbn [LruCache.entries LruCache.maxSize].
    + now apply unique_keys_tl.
    + unfold LruCache.size, JSMap.size in *.
      cbn [LruCache.entries]. destruct (LruCache.entries moved);
        cbn [tl length] in *; lia.
  - split; [assumption|lia].
Qed.

Lemma LruCache_maxSize_kept k val (cache : LruCache.t V) :
  LruCache.maxSize (snd (LruCache.has k cache)) = LruCache.maxSize cache
  /\ LruCache.maxSize (snd (LruCache.get k cache)) = LruCache.maxSize cache
  /\ LruCache.maxSize (LruCache.set k val cache) = LruCache.maxSize cache.
Proof.
  unfold LruCache.has, LruCache.get, LruCache.set, LruCache.pruneToMaxSize.
  destruct (JSMap.get k (LruCache.entries cache));
    destruct (_ <? _); repeat split.
Qed.

End MapOrder.

Section LruStore.

Variable w : World.
Variable slot : Slot (LruCache.t Cached).
Hypothesis lawful : lawful_slot slot.
Variable fn : string -> M (option string).
Variable getKey : string -> string.
Variable arg : string.
Variable does : list Event -> option string -> list Event -> Prop.

Hypothesis fn_does :
  forall st, exists r evs,
    fn arg st = (Returns r, record_events evs st) /\ does (trace st) r evs.

(** On an [LruCache] a hit moves the entry to the recent end, twice: once
    for [has] and once for [get]. *)
Lemma memoize_Lru_hit st promise :
  JSMap.get (getKey arg) (LruCache.entries (peek slot st)) = Some promise ->
  memoize w fn slot getKey arg st
  = (promise,
     poke slot
       (LruCache.setMostRecentlyUsed (getKey arg) promise
          (LruCache.setMostRecentlyUsed (getKey arg) promise (peek slot st)))
       st).
Proof.
  intros Hget.
  apply (memoize_hit w slot fn getKey arg st
           (LruCache.setMostRecentlyUsed (getKey arg) promise
              (peek slot st))).
  - cbn. unfold LruCache.has. now rewrite Hget.
  - cbn. unfold LruCache.get.
    destruct (setMostRecentlyUsed_order (getKey arg) promise (peek slot st))
      as (_ & _ & _ & _ & Hthere).
    now rewrite Hthere.
Qed.

Lemma memoize_Lru_miss st :
  JSMap.get (getKey arg) (LruCache.entries (peek slot st)) = None ->
  exists r evs,
    memoize w fn slot getKey arg st
    = (Returns r,
       poke slot (LruCache.set (getKey arg) (Returns r) (peek slot st))
         (record_events evs st))
    /\ does (trace st) r evs.
Proof.
  intros Hget.
  destruct (memoize_miss w slot lawful fn getKey arg does fn_does st
              (peek slot st)) as (r & evs & Hrun & Hdoes).
  { cbn. unfold LruCache.has. now rewrite Hget. }
  exists r, evs. split; [exact Hrun|assumption].
Qed.

(** A new key survives the pruning that follows its insertion as soon as
    the store may hold one entry. *)
Lemma LruCache_set_new k (val : Cached) (cache : LruCache.t Cached) :
  1 <= LruCache.maxSize cache ->
  JSMap.get k (LruCache.entries cache) = None ->
  JSMap.get k (LruCache.entries (LruCache.set k val cache)) = Some val.
Proof.
  intros Hmax Hget.
  unfold LruCache.set, LruCache.setMostRecentlyUsed, LruCache.pruneToMaxSize.
  cbn [LruCache.entries LruCache.maxSize].
  rewrite (JSMap_delete_absent _ _ Hget), (JSMap_set_fresh _ val _ Hget).
  destruct (_ <? _) eqn:Hover; cbn [LruCache.entries];
    [|now apply JSMap_get_snoc].
  apply Z.ltb_lt in Hover. unfold JSMap.size in Hover.
  rewrite length_app in Hover. cbn [length] in Hover.
  destruct (LruCache.entries cache) as [|[k0 v0] rest]; cbn in Hover; [lia|].
  cbn [app tl]. apply JSMap_get_snoc.
  cbn in Hget. now destruct (String.eqb k0 k).
Qed.

(** Without room for one entry an empty store stays empty. *)
Lemma LruCache_set_no_room k (val : Cached) (cache : LruCache.t Cached) :
  LruCache.maxSize cache <= 0 ->
  LruCache.entries cache = [] ->
  LruCache.entries (LruCache.set k val cache) = [].
Proof.
  intros Hmax Hempty.
  unfold LruCache.set, LruCache.setMostRecentlyUsed, LruCache.pruneToMaxSize.
  cbn [LruCache.entries LruCache.maxSize]. rewrite Hempty.
  cbn [JSMap.delete JSMap.set tl].
  change (JSMap.size [(k, val)]) with 1.
  destruct (Z.ltb_spec (LruCache.maxSize cache) 1); [reflexivity|lia].
Qed.

(** Asked again, a memoized call on an [LruCache] with room for an entry is
    answered from the store. *)
Lemma memoize_Lru_again st :
  1 <= LruCache.maxSize (peek slot st) ->
  exists st2,
    memoize w fn slot getKey arg (snd (memoize w fn slot getKey arg st))
    = (fst (memoize w fn slot getKey arg st), st2)
    /\ trace st2 = trace (snd (memoize w fn slot getKey arg st)).
Proof.
  intros Hmax.
  destruct (JSMap.get (getKey arg) (LruCache.entries (peek slot st)))
    as [promise|] eqn:Hget.
  - rewrite (memoize_Lru_hit st promise Hget). cbn [fst snd].
    eexists. split; [apply memoize_Lru_hit|apply (slot_trace slot lawful)].
    rewrite (slot_peek_poke slot lawful).
    apply setMostRecentlyUsed_order.
  - destruct (memoize_Lru_miss st Hget) as (r & evs & -> & _).
    cbn [fst snd].
    eexists. split; [apply memoize_Lru_hit|apply (slot_trace slot lawful)].
    rewrite (slot_peek_poke slot lawful). now apply LruCache_set_new.
Qed.

(** Without room for an entry every call is a miss. *)
Lemma memoize_Lru_no_room st :
  LruCache.maxSize (peek slot st) <= 0 ->
  LruCache.entries (peek slot st) = [] ->
  exists r st1 evs,
    memoize w fn slot getKey arg st = (Returns r, st1)
    /\ trace st1 = trace st ++ evs
    /\ does (trace st) r evs
    /\ LruCache.maxSize (peek slot st1) = LruCache.maxSize (peek slot st)
    /\ LruCache.entries (peek slot st1) = [].
Proof.
  intros Hmax Hempty.
  destruct (memoize_Lru_miss st) as (r & evs & Hrun & Hdoes);
    [now rewrite Hempty|].
  eexists r, _, evs. split; [exact Hrun|].
  rewrite (slot_trace slot lawful), (slot_peek_poke slot lawful).
  split; [reflexivity|]. split; [assumption|].
  split; [apply (LruCache_maxSize_kept (getKey arg) (Returns r))|].
  now apply LruCache_set_no_room.
Qed.

(** A memoized call keeps an [LruCache] within its capacity. *)
Lemma memoize_Lru_capacity st :
  within_capacity (peek slot st) ->
  within_capacity (peek slot (snd (memoize w fn slot getKey arg st)))
  /\ LruCache.maxSize (peek slot (snd (memoize w fn slot getKey arg st)))
     = LruCache.maxSize (peek slot st).
Proof.
  intros Hcap.
  destruct (JSMap.get (getKey arg) (LruCache.entries (peek slot st)))
    as [promise|] eqn:Hget.
  - rewrite (memoize_Lru_hit st promise Hget). cbn [snd].
    rewrite (slot_peek_poke slot lawful). split; [|reflexivity].
    pose proof (LruCache_has_order (getKey arg) _ Hcap) as Hhas.
    unfold LruCache.has in Hhas. rewrite Hget in Hhas. cbn [snd] in Hhas.
    pose proof (LruCache_get_order (getKey arg) _ Hhas) as Hagain.
    unfold LruCache.get in Hagain.
    destruct (setMostRecentlyUsed_order (getKey arg) promise (peek slot st))
      as (_ & _ & _ & _ & Hthere).
    now rewrite Hthere in Hagain.
  - destruct (memoize_Lru_miss st Hget) as (r & evs & -> & _). cbn [snd].
    rewrite (slot_peek_poke slot lawful).
    split; [now apply LruCache_set_order|].
    apply (LruCache_maxSize_kept (getKey arg) (Returns r)).
Qed.

End LruStore.

Section OtherStore.

Variable w : World.
Context {C : Type} `{MemoizationCache C Cached}.
Variable slot : Slot C.
Variable fn : string -> M (option string).
Variable getKey : string -> string.
Variable arg : string.
Variable does : list Event -> option string -> list Event -> Prop.

Hypothesis fn_does :
  forall st, exists r evs,
    fn arg st = (Returns r, record_events evs st) /\ does (trace st) r evs.

Hypothesis elsewhere :
  forall cache st,
    STREAM_VALIDATION_CACHE (poke slot cache st) = STREAM_VALIDATION_CACHE st.

(** A memoized call on another store leaves the validation store alone. *)
Lemma memoize_elsewhere st :
  STREAM_VALIDATION_CACHE (snd (memoize w fn slot getKey arg st))
  = STREAM_VALIDATION_CACHE st.
Proof.
  unfold memoize.
  destruct (cache_has _ _ _) as [[|] c1].
  - destruct (cache_get _ _ _) as [[promise|] c2]; cbn [snd];
      apply elsewhere.
  - destruct (fn_does (poke slot c1 st)) as (r & evs & -> & _).
    cbn [snd]. rewrite elsewhere.
    rewrite (slot_peek_record _ STREAM_VALIDATION_CACHE_lawful).
    apply elsewhere.
Qed.

End OtherStore.

Section StoreBound.

Variable w : World.
Variable cfg : Config.

Variable maxSize : Z.

Lemma validateStream_bounded url st :
  bounded maxSize st -> bounded maxSize (snd (validateStream w cfg url st)).
Proof.
  unfold bounded, validateStream. intros [Hcap Hmax].
  destruct (USE_CACHE cfg).
  - destruct (memoize_Lru_capacity w _ STREAM_VALIDATION_CACHE_lawful _
                (fun u => "stream:" +:+ u) url _
                (validateStream_fn_does w cfg url) st Hcap) as [Hcap' Hmax'].
    cbn [peek STREAM_VALIDATION_CACHE_slot] in *. split; congruence.
  - now rewrite (memoize_elsewhere w validateStream_Map_slot _ _ url _
                   (validateStream_fn_does w cfg url)).
Qed.

Lemma getVideoInfo_bounded vid st :
  bounded maxSize st -> bounded maxSize (snd (getVideoInfo w cfg vid st)).
Proof.
  unfold bounded, getVideoInfo. intros Hb. destruct (USE_CACHE cfg).
  - now rewrite (memoize_elsewhere w VIDEO_INFO_CACHE_slot _ _ vid _
                   (getVideoInfo_fn_does w vid)).
  - now rewrite (memoize_elsewhere w getVideoInfo_Map_slot _ _ vid _
                   (getVideoInfo_fn_does w vid)).
Qed.

Lemma getVideoId_bounded url st :
  bounded maxSize st -> bounded maxSize (snd (getVideoId w cfg url st)).
Proof.
  unfold bounded, getVideoId. intros Hb. destruct (USE_CACHE cfg).
  - now rewrite (memoize_elsewhere w VIDEO_INFO_CACHE_slot _ _ url _
                   (getVideoId_fn_does w url)).
  - now rewrite (memoize_elsewhere w getVideoId_Map_slot _ _ url _
                   (getVideoId_fn_does w url)).
Qed.

Lemma getHslStream_bounded param st :
  bounded maxSize st -> bounded maxSize (snd (getHslStream w cfg param st)).
Proof.
  intros Hb. unfold getHslStream, try_catch.
  set (st0 := record_event (Dispatched param) st).
  assert (Hb0 : bounded maxSize st0) by exact Hb.
  destruct (type param).
  - pose proof (getVideoInfo_bounded (value param) st0 Hb0) as Hb1.
    now destruct (getVideoInfo w cfg (value param) st0) as [[r|] st1].
  - unfold bind.
    pose proof (getVideoId_bounded (live_page (value param)) st0 Hb0) as Hb1.
    destruct (getVideoId w cfg (live_page (value param)) st0)
      as [[[[|a s]|]|] st1]; cbn [snd] in Hb1; try exact Hb1.
    pose proof (getVideoInfo_bounded (String a s) st1 Hb1) as Hb2.
    now destruct (getVideoInfo w cfg (String a s) st1) as [[r|] st2].
  - pose proof (validateStream_bounded (value param) st0 Hb0) as Hb1.
    now destruct (validateStream w cfg (value param) st0) as [[r|] st1].
Qed.

Lemma first_stream_bounded params st :
  bounded maxSize st -> bounded maxSize (snd (first_stream w cfg params st)).
Proof.
  revert st. induction params as [|param rest IH]; intros st Hb;
    [exact Hb|].
  cbn [first_stream]. unfold bind.
  pose proof (getHslStream_bounded param st Hb) as Hb1.
  destruct (getHslStream w cfg param st) as [[[[|a s]|]|] st1];
    cbn [snd] in Hb1; try exact Hb1; now apply IH.
Qed.

Lemma main_endpoint_bounded entries st :
  bounded maxSize st -> bounded maxSize (snd (main_endpoint w cfg entries st)).
Proof.
  intros Hb. unfold main_endpoint.
  destruct (_ =? 0); [exact Hb|now apply first_stream_bounded].
Qed.

End StoreBound.

(** X15. No request makes the validation store outgrow its capacity: when
    its keys are distinct and its entries at most [maxSize] before the [/]
    handler runs, so they are after, whatever the query and whatever the
    upstream answers, and [maxSize] is as it was. *)
Theorem validation_store_stays_bounded w cfg entries st :
  within_capacity (STREAM_VALIDATION_CACHE st) ->
  within_capacity
    (STREAM_VALIDATION_CACHE (snd (main_endpoint w cfg entries st)))
  /\ LruCache.maxSize
       (STREAM_VALIDATION_CACHE (snd (main_endpoint w cfg entries st)))
     = LruCache.maxSize (STREAM_VALIDATION_CACHE st).
Proof.
  intros Hcap.
  exact (main_endpoint_bounded w cfg _ entries st (conj Hcap eq_refl)).
Qed.

(** X16. While caching is on and the validation store has room for at least
    one entry, a validation that is asked again at once is answered from the
    store, whatever the clock says: the same result, and no probe. *)
Theorem validation_repeats w cfg url st :
  USE_CACHE cfg = true ->
  1 <= LruCache.maxSize (STREAM_VALIDATION_CACHE st) ->
  exists st2,
    validateStream w cfg url (snd (validateStream w cfg url st))
    = (fst (validateStream w cfg url st), st2)
    /\ trace st2 = trace (snd (validateStream w cfg url st)).
Proof.
  intros Hon Hroom. unfold validateStream. rewrite Hon.
  exact (memoize_Lru_again w _ STREAM_VALIDATION_CACHE_lawful _ _ url _
           (validateStream_fn_does w cfg url) st Hroom).
Qed.

(** X17. While caching is on but the validation store has no room, which is
    so when [STREAM_VALIDATION_CACHE_TTL] is 0 and [VIDEO_INFO_CACHE_SIZE] is
    not, no validation is remembered: every call probes upstream, and the
    store is as empty after as before. *)
Theorem validation_without_room w cfg url st :
  USE_CACHE cfg = true ->
  LruCache.maxSize (STREAM_VALIDATION_CACHE st) <= 0 ->
  LruCache.entries (STREAM_VALIDATION_CACHE st) = [] ->
  exists r st1 evs,
    validateStream w cfg url st = (Returns r, st1)
    /\ trace st1 = trace st ++ evs
    /\ validation w cfg url (trace st) r evs
    /\ LruCache.maxSize (STREAM_VALIDATION_CACHE st1)
       = LruCache.maxSize (STREAM_VALIDATION_CACHE st)
    /\ LruCache.entries (STREAM_VALIDATION_CACHE st1) = [].
Proof.
  intros Hon Hmax Hempty. unfold validateStream. rewrite Hon.
  exact (memoize_Lru_no_room w _ STREAM_VALIDATION_CACHE_lawful _ _ url _
           (validateStream_fn_does w cfg url) st Hmax Hempty).
Qed.

(** ** The pipeline's [memoize] under the event loop *)

Section ValueMaps.

Context {A B : Type}.
Variable g : A -> B.


Lemma JSMap_get_map k (m : JSMap.t A) :
  JSMap.get k (map (fun e => (fst e, g (snd e))) m) = g <$> JSMap.get k m.
Proof.
  induction m as [|[k' val] m IH]; cbn; [reflexivity|].
  now destruct (String.eqb k' k).
Qed.

Lemma JSMap_has_map k (m : JSMap.t A) :
  JSMap.has k (map (fun e => (fst e, g (snd e))) m) = JSMap.has k m.
Proof.
  unfold JSMap.has. rewrite JSMap_get_map.
  now destruct (JSMap.get k m).
Qed.

Lemma JSMap_set_map k val (m : JSMap.t A) :
  JSMap.set k (g val) (map (fun e => (fst e, g (snd e))) m)
  = map (fun e => (fst e, g (snd e))) (JSMap.set k val m).
Proof.
  induction m as [|[k' v'] m IH]; cbn; [reflexivity|].
  destruct (String.eqb k' k); cbn; [reflexivity|]. now rewrite IH.
Qed.

Lemma JSMap_delete_map k (m : JSMap.t A) :
  JSMap.delete k (map (fun e => (fst e, g (snd e))) m)
  = map (fun e => (fst e, g (snd e))) (JSMap.delete k m).
Proof.
  induction m as [|[k' v'] m IH]; cbn; [reflexivity|].
  destruct (String.eqb k' k); cbn; [reflexivity|]. now rewrite IH.
Qed.

Lemma filter_map_entries (p : string * A -> bool) (q : string * B -> bool)
    (m : JSMap.t A) :
  (forall e, q (fst e, g (snd e)) = p e) ->
  List.filter q (map (fun e => (fst e, g (snd e))) m)
  = map (fun e => (fst e, g (snd e))) (List.filter p m).
Proof.
  intros Hpq. induction m as [|e m IH]; cbn; [reflexivity|].
  rewrite Hpq. destruct (p e); cbn; now rewrite IH.
Qed.

End ValueMaps.

(** The three kinds of store do not look at what they hold: reading the
    promises as outcomes before an operation is reading them so after it. *)

Lemma JSMap_outcomes_has f time k (m : JSMap.t nat) :
  cache_has time k (JSMap_outcomes f m)
  = (fst (cache_has time k m), JSMap_outcomes f (snd (cache_has time k m))).
Proof. cbn. unfold JSMap_outcomes. now rewrite JSMap_has_map. Qed.

Lemma JSMap_outcomes_get f time k (m : JSMap.t nat) :
  cache_get time k (JSMap_outcomes f m)
  = (f <$> fst (cache_get time k m),
     JSMap_outcomes f (snd (cache_get time k m))).
Proof. cbn. unfold JSMap_outcomes. now rewrite JSMap_get_map. Qed.

Lemma JSMap_outcomes_set f time k p (m : JSMap.t nat) :
  cache_set time k (f p) (JSMap_outcomes f m)
  = JSMap_outcomes f (cache_set time k p m).
Proof. cbn. apply JSMap_set_map. Qed.

Lemma LruCache_outcomes_moved f k p (cache : LruCache.t nat) :
  LruCache.setMostRecentlyUsed k (f p) (LruCache_outcomes f cache)
  = LruCache_outcomes f (LruCache.setMostRecentlyUsed k p cache).
Proof.
  unfold LruCache.setMostRecentlyUsed, LruCache_outcomes, JSMap_outcomes.
  cbn [LruCache.entries LruCache.maxSize].
  now rewrite JSMap_delete_map, JSMap_set_map.
Qed.

Lemma LruCache_outcomes_has f time k (cache : LruCache.t nat) :
  cache_has time k (LruCache_outcomes f cache)
  = (fst (cache_has time k cache),
     LruCache_outcomes f (snd (cache_has time k cache))).
Proof.
  cbn. unfold LruCache.has.
  cbn [LruCache_outcomes LruCache.entries]. unfold JSMap_outcomes.
  rewrite JSMap_get_map.
  destruct (JSMap.get k (LruCache.entries cache)) as [p|]; cbn [fmap
    option_fmap option_map fst snd]; [|reflexivity].
  now rewrite <- LruCache_outcomes_moved.
Qed.

Lemma LruCache_outcomes_get f time k (cache : LruCache.t nat) :
  cache_get time k (LruCache_outcomes f cache)
  = (f <$> fst (cache_get time k cache),
     LruCache_outcomes f (snd (cache_get time k cache))).
Proof.
  cbn. unfold LruCache.get.
  cbn [LruCache_outcomes LruCache.entries]. unfold JSMap_outcomes.
  rewrite JSMap_get_map.
  destruct (JSMap.get k (LruCache.entries cache)) as [p|]; cbn [fmap
    option_fmap option_map fst snd]; [|reflexivity].
  now rewrite <- LruCache_outcomes_moved.
Qed.

Lemma LruCache_outcomes_set f time k p (cache : LruCache.t nat) :
  cache_set time k (f p) (LruCache_outcomes f cache)
  = LruCache_outcomes f (cache_set time k p cache).
Proof.
  cbn. unfold LruCache.set. rewrite LruCache_outcomes_moved.
  unfold LruCache.pruneToMaxSize, LruCache_outcomes, JSMap_outcomes,
    JSMap.size.
  cbn [LruCache.entries LruCache.maxSize]. rewrite length_map.
  destruct (_ <? _); cbn [LruCache.entries LruCache.maxSize];
    [|reflexivity].
  now destruct (LruCache.entries (LruCache.setMostRecentlyUsed k p cache)).
Qed.

Lemma TtlCache_outcomes_expire f time (cache : TtlCache.t nat) :
  TtlCache.expire time (TtlCache_outcomes f cache)
  = TtlCache_outcomes f (TtlCache.expire time cache).
Proof.
  unfold TtlCache.expire, TtlCache_outcomes.
  cbn [TtlCache.entries TtlCache.defaultTtl]. f_equal.
  exact (filter_map_entries (fun val => (f (fst val), snd val))
           (TtlCache.live time) (TtlCache.live time) _
           (fun e => eq_refl)).
Qed.

Lemma TtlCache_outcomes_has f time k (cache : TtlCache.t nat) :
  cache_has time k (TtlCache_outcomes f cache)
  = (fst (cache_has time k cache),
     TtlCache_outcomes f (snd (cache_has time k cache))).
Proof.
  cbn. unfold TtlCache.has. rewrite TtlCache_outcomes_expire.
  cbn [fst snd]. f_equal.
  exact (JSMap_has_map (fun val => (f (fst val), snd val)) k _).
Qed.

Lemma TtlCache_outcomes_get f time k (cache : TtlCache.t nat) :
  cache_get time k (TtlCache_outcomes f cache)
  = (f <$> fst (cache_get time k cache),
     TtlCache_outcomes f (snd (cache_get time k cache))).
Proof.
  cbn. unfold TtlCache.get. rewrite TtlCache_outcomes_expire.
  cbn [fst snd]. f_equal. unfold TtlCache_outcomes.
  cbn [TtlCache.entries].
  rewrite (JSMap_get_map (fun val => (f (fst val), snd val)) k _).
  now destruct (JSMap.get k _) as [[p expiry]|].
Qed.

Lemma TtlCache_outcomes_set f time k p (cache : TtlCache.t nat) :
  cache_set time k (f p) (TtlCache_outcomes f cache)
  = TtlCache_outcomes f (cache_set time k p cache).
Proof.
  cbn. unfold TtlCache.set. rewrite TtlCache_outcomes_expire.
  unfold TtlCache_outcomes. cbn [TtlCache.entries TtlCache.defaultTtl].
  f_equal.
  exact (JSMap_set_map (fun val => (f (fst val), snd val)) k
           (p, time + TtlCache.defaultTtl cache) _).
Qed.

Section Refinement.

Context {C D : Type}.
Context {promises_of : MemoizationCache C nat}.
Context {outcomes_of : MemoizationCache D Cached}.

Variable outcomes : (nat -> Cached) -> C -> D.

Hypothesis outcomes_has :
  forall f time k cache,
    cache_has time k (outcomes f cache)
    = (fst (cache_has time k cache),
       outcomes f (snd (cache_has time k cache))).

Hypothesis outcomes_get :
  forall f time k cache,
    cache_get time k (outcomes f cache)
    = (f <$> fst (cache_get time k cache),
       outcomes f (snd (cache_get time k cache))).

Hypothesis outcomes_set :
  forall f time k p cache,
    cache_set time k (f p) (outcomes f cache)
    = outcomes f (cache_set time k p cache).

Variable w : World.
Variable slot : Slot D.
Hypothesis lawful : lawful_slot slot.
Variable fn : string -> M (option string).
Variable getKey : string -> string.
Variable arg : string.
Variable does : list Event -> option string -> list Event -> Prop.

Hypothesis fn_does :
  forall st, exists r evs,
    fn arg st = (Returns r, record_events evs st) /\ does (trace st) r evs.

(** One call of the pipeline's [memoize] is one call under the event loop.
    Let the store of the process be the store of promises of the loop, with
    each promise [p] read as the outcome [f p]. Then either both find the
    key, nothing is invoked, and the caller of the pipeline gets the outcome
    of the promise the caller under the loop holds; or both miss, [fn] is
    invoked once, and a new promise is made and stored. In both cases the
    stores they leave are again the same, once the new promise is read as
    what [fn] returned. *)
Lemma call_refines_memoize f l st :
  peek slot st = outcomes f (EventLoop.cache l) ->
  let '(promise, l1) :=
    EventLoop.call getKey (now w (trace st)) arg l in
  let '(o, st1) := memoize w fn slot getKey arg st in
  (EventLoop.invocations l1 = EventLoop.invocations l
   /\ trace st1 = trace st
   /\ o = match promise with Some p => f p | None => Throws end
   /\ peek slot st1 = outcomes f (EventLoop.cache l1))
  \/ (promise = Some (length (EventLoop.promises l))
      /\ EventLoop.invocations l1 = EventLoop.invocations l ++ [arg]
      /\ exists r evs,
           o = Returns r
           /\ does (trace st) r evs
           /\ trace st1 = trace st ++ evs
           /\ (f (length (EventLoop.promises l)) = Returns r ->
               peek slot st1 = outcomes f (EventLoop.cache l1))).
Proof.
  intros Hsame. unfold EventLoop.call, memoize.
  rewrite Hsame, outcomes_has.
  destruct (cache_has (now w (trace st)) (getKey arg) (EventLoop.cache l))
    as [[|] c1]; cbn [fst snd].
  - rewrite outcomes_get.
    destruct (cache_get (now w (trace st)) (getKey arg) c1)
      as [[p|] c2]; cbn [fst snd fmap option_fmap option_map];
      left; cbn [EventLoop.invocations EventLoop.cache];
      rewrite (slot_trace slot lawful), (slot_peek_poke slot lawful);
      now repeat split.
  - destruct (fn_does (poke slot (outcomes f c1) st))
      as (r & evs & -> & Hdoes).
    rewrite (slot_trace slot lawful) in Hdoes.
    right. cbn [EventLoop.invocations EventLoop.cache].
    split; [reflexivity|]. split; [reflexivity|].
    exists r, evs. split; [reflexivity|]. split; [assumption|].
    rewrite (slot_trace slot lawful). cbn [trace record_events].
    rewrite (slot_trace slot lawful). split; [reflexivity|].
    intros Hsettles.
    rewrite (slot_peek_poke slot lawful), (slot_peek_record slot lawful),
      (slot_peek_poke slot lawful).
    now rewrite <- Hsettles, outcomes_set.
Qed.

(** The first caller against a store without the key. *)
Lemma first_call_refines_memoize promised st :
  peek slot st
  = outcomes (fun _ => fst (memoize w fn slot getKey arg st)) promised ->
  fst (cache_has (now w (trace st)) (getKey arg) promised) = false ->
  peek slot (snd (memoize w fn slot getKey arg st))
  = outcomes (fun _ => fst (memoize w fn slot getKey arg st))
      (EventLoop.cache
         (snd (EventLoop.call getKey (now w (trace st)) arg
                 (EventLoop.start promised)))).
Proof.
  intros Hsame Hmiss.
  pose proof (call_refines_memoize
                (fun _ => fst (memoize w fn slot getKey arg st))
                (EventLoop.start promised) st Hsame) as Hstep.
  assert (Hinvoked :
            EventLoop.invocations
              (snd (EventLoop.call getKey (now w (trace st)) arg
                      (EventLoop.start promised)))
            <> EventLoop.invocations (EventLoop.start promised)).
  { unfold EventLoop.call, EventLoop.start. cbn [EventLoop.cache].
    destruct (cache_has _ _ promised) as [found c1]. cbn in Hmiss.
    subst found. discriminate. }
  destruct (EventLoop.call getKey (now w (trace st)) arg
              (EventLoop.start promised)) as [promise l1].
  destruct (memoize w fn slot getKey arg st) as [o st1].
  cbn [fst snd] in *.
  destruct Hstep as [(Hnone & _)|(_ & _ & r & evs & -> & _ & _ & Hstore)];
    [contradiction|].
  now apply Hstore.
Qed.

(** Callers of a memoized function of the pipeline whose store lacks the
    key share one call as soon as they do so under the event loop. *)
Lemma callers_share_memoize promised st later :
  peek slot st
  = outcomes (fun _ => fst (memoize w fn slot getKey arg st)) promised ->
  fst (cache_has (now w (trace st)) (getKey arg) promised) = false ->
  EventLoop.share_one_call promised getKey (now w (trace st)) later arg ->
  callers_share outcomes w (memoize w fn slot getKey) (peek slot) promised
    getKey st later arg.
Proof.
  intros Hsame Hmiss Hshare. unfold callers_share.
  pose proof (first_call_refines_memoize promised st Hsame Hmiss) as Hleft.
  destruct (memoize w fn slot getKey arg st) as [o st1].
  destruct (EventLoop.call getKey (now w (trace st)) arg
              (EventLoop.start promised)) as [promise l1].
  cbn [fst snd] in *. now repeat split.
Qed.

End Refinement.



Section OtherStoreTtl.

Variable w : World.
Context {C : Type} `{MemoizationCache C Cached}.
Variable slot : Slot C.
Variable fn : string -> M (option string).
Variable getKey : string -> string.
Variable arg : string.
Variable does : list Event -> option string -> list Event -> Prop.

Hypothesis fn_does :
  forall st, exists r evs,
    fn arg st = (Returns r, record_events evs st) /\ does (trace st) r evs.

Hypothesis elsewhere :
  forall cache st,
    VIDEO_INFO_CACHE (poke slot cache st) = VIDEO_INFO_CACHE st.

(** A memoized call on another store leaves the [TtlCache] alone. *)
Lemma memoize_elsewhere_Ttl st :
  VIDEO_INFO_CACHE (snd (memoize w fn slot getKey arg st))
  = VIDEO_INFO_CACHE st.
Proof.
  unfold memoize.
  destruct (cache_has _ _ _) as [[|] c1].
  - destruct (cache_get _ _ _) as [[promise|] c2]; cbn [snd];
      apply elsewhere.
  - destruct (fn_does (poke slot c1 st)) as (r & evs & -> & _).
    cbn [snd]. rewrite elsewhere.
    rewrite (slot_peek_record _ VIDEO_INFO_CACHE_lawful).
    apply elsewhere.
Qed.

End OtherStoreTtl.

(** ** What [/clear-cache] reaches in the earlier revision *)

Section MapEntries.

Variable w : World.
Variable slot : Slot (JSMap.t Cached).
Hypothesis lawful : lawful_slot slot.
Hypothesis poke_peek : forall st, poke slot (peek slot st) st = st.
Variable fn : string -> M (option string).
Variable getKey : string -> string.
Variable arg : string.
Variable does : list Event -> option string -> list Event -> Prop.

Hypothesis fn_does :
  forall st, exists r evs,
    fn arg st = (Returns r, record_events evs st) /\ does (trace st) r evs.

(** On a plain [Map] an entry answers the call and nothing moves. *)
Lemma memoize_Map_hit st promise :
  JSMap.get (getKey arg) (peek slot st) = Some promise ->
  memoize w fn slot getKey arg st = (promise, st).
Proof.
  intros Hget. rewrite <- (poke_peek st) at 2.
  apply (memoize_hit w slot fn getKey arg st (peek slot st));
    cbn; unfold JSMap.has; now rewrite Hget.
Qed.

(** After a call the [Map] holds the outcome under the call's key. *)
Lemma memoize_Map_keeps st :
  JSMap.get (getKey arg) (peek slot (snd (memoize w fn slot getKey arg st)))
  = Some (fst (memoize w fn slot getKey arg st)).
Proof.
  destruct (JSMap.get (getKey arg) (peek slot st)) as [promise|] eqn:Hget.
  - now rewrite (memoize_Map_hit st promise Hget).
  - destruct (memoize_miss w slot lawful fn getKey arg does fn_does
                st (peek slot st)) as (r & evs & -> & _).
    { cbn. unfold JSMap.has. now rewrite Hget. }
    cbn [fst snd]. rewrite (slot_peek_poke slot lawful). cbn.
    apply JSMap_get_set.
Qed.

End MapEntries.

(** A permitted request leaves [TTL_CACHE] without entries, with one of the
    two answers. *)
Lemma clear_cache_permitted {V} API_KEY req time (cache : TtlCache.t V) :
  Part000.hasAccess_clear API_KEY req = true ->
  TtlCache.entries (snd (Part000.clear_cache API_KEY req time cache)) = []
  /\ (fst (Part000.clear_cache API_KEY req time cache)
      = Part000.cache_cleared
      \/ fst (Part000.clear_cache API_KEY req time cache)
         = Part000.nothing_to_clear)
  /\ (TtlCache.entries cache = [] ->
      fst (Part000.clear_cache API_KEY req time cache)
      = Part000.nothing_to_clear).
Proof.
  intros Hacc. unfold Part000.clear_cache. rewrite Hacc. cbn [negb].
  destruct (TtlCache.size time cache =? 0) eqn:Hsize; cbn [negb fst snd].
  - apply Z.eqb_eq in Hsize. split; [now apply TtlCache_size_zero|].
    split; [now right|reflexivity].
  - split; [reflexivity|]. split; [now left|].
    intros Hempty. apply Z.eqb_neq in Hsize. exfalso. apply Hsize.
    unfold TtlCache.size, TtlCache.expire. cbn [TtlCache.entries].
    now rewrite Hempty.
Qed.

(** C9 (as the code has it). A permitted [/clear-cache] request is answered
    200 with "Cache cleared!" or "Nothing to clear. Cache is empty!", and
    leaves [TTL_CACHE] without entries. Whether that drops what
    [getVideoInfo] remembers depends on [CACHE_TTL]. When it is positive,
    [getVideoInfo] keeps its results in [TTL_CACHE]: after the request a
    lookup made before it is gone, and the same lookup calls
    [session.getInfo] again. When it is 0 or less, [memoize] is given no
    cache and keeps the results in a [Map] of its own, which the handler
    does not reach: the lookup made before the request is still there after
    it, the same lookup is answered from it without an upstream call, and
    with [TTL_CACHE] empty from the start the answer is "Nothing to clear.
    Cache is empty!". *)
Theorem clear_cache_reaches_TTL_CACHE_only w CACHE_TTL getKey API_KEY req
    vid st :
  Part000.hasAccess_clear API_KEY req = true ->
  let '(o, st1) := Part000.getVideoInfo w CACHE_TTL getKey vid st in
  let '(answer, st2) := Part000.clear_cache_endpoint w API_KEY req st1 in
  (exists json,
     answer = Returns json
     /\ Part000.status json = 200
     /\ Part000.success json = true
     /\ (json = Part000.cache_cleared \/ json = Part000.nothing_to_clear))
  /\ TtlCache.entries (peek Part000.TTL_CACHE st2) = []
  /\ trace st2 = trace st1
  /\ if Part000.USE_CACHE CACHE_TTL then
       exists r st3,
         Part000.getVideoInfo w CACHE_TTL getKey vid st2 = (Returns r, st3)
         /\ trace st3
            = trace st2 ++ [GotInfo vid (session_getInfo w (trace st2) vid)]
     else
       (TtlCache.entries (peek Part000.TTL_CACHE st) = [] ->
        answer = Returns Part000.nothing_to_clear)
       /\ JSMap.get (getKey vid) (getVideoInfo_Map st2) = Some o
       /\ Part000.getVideoInfo w CACHE_TTL getKey vid st2 = (o, st2).
Proof.
  intros Hacc. unfold Part000.getVideoInfo.
  destruct (Part000.USE_CACHE CACHE_TTL).
  - destruct (memoize w (getVideoInfo_fn w) Part000.TTL_CACHE getKey vid st)
      as [o st1].
    unfold Part000.clear_cache_endpoint.
    destruct (clear_cache_permitted API_KEY req (now w (trace st1))
                (peek Part000.TTL_CACHE st1) Hacc)
      as (Hempty & Hanswer & _).
    destruct (Part000.clear_cache API_KEY req (now w (trace st1))
                (peek Part000.TTL_CACHE st1)) as [json cache].
    cbn [fst snd] in *.
    split.
    { exists json. destruct Hanswer as [-> | ->];
        (split; [reflexivity|]); (split; [reflexivity|]);
        (split; [reflexivity|]); [now left|now right]. }
    split; [assumption|]. split; [reflexivity|].
    destruct (memoize_miss w Part000.TTL_CACHE VIDEO_INFO_CACHE_lawful
                (getVideoInfo_fn w) getKey vid _
                (getVideoInfo_fn_does w vid)
                (poke Part000.TTL_CACHE cache st1)
                (TtlCache.expire
                   (now w (trace (poke Part000.TTL_CACHE cache st1)))
                   cache))
      as (r & evs & Hrun & Hevs & _).
    { cbn. unfold TtlCache.has, JSMap.has, TtlCache.expire.
      cbn [TtlCache.entries]. now rewrite Hempty. }
    exists r. eexists. split; [exact Hrun|]. now rewrite Hevs.
  - pose proof (memoize_Map_keeps w getVideoInfo_Map_slot
                  getVideoInfo_Map_lawful getVideoInfo_Map_poke_peek
                  (getVideoInfo_fn w) getKey vid _
                  (getVideoInfo_fn_does w vid) st) as Hkept.
    assert (Hframe : peek Part000.TTL_CACHE
                       (snd (memoize w (getVideoInfo_fn w)
                               getVideoInfo_Map_slot getKey vid st))
                     = peek Part000.TTL_CACHE st)
      by apply (memoize_elsewhere_Ttl w getVideoInfo_Map_slot
                  (getVideoInfo_fn w) getKey vid _
                  (getVideoInfo_fn_does w vid)
                  (fun cache st => eq_refl)).
    destruct (memoize w (getVideoInfo_fn w) getVideoInfo_Map_slot getKey
                vid st) as [o st1].
    cbn [fst snd] in *. unfold Part000.clear_cache_endpoint.
    destruct (clear_cache_permitted API_KEY req (now w (trace st1))
                (peek Part000.TTL_CACHE st1) Hacc)
      as (Hempty & Hanswer & Hnothing).
    destruct (Part000.clear_cache API_KEY req (now w (trace st1))
                (peek Part000.TTL_CACHE st1)) as [json cache].
    cbn [fst snd] in *.
    split.
    { exists json. destruct Hanswer as [-> | ->];
        (split; [reflexivity|]); (split; [reflexivity|]);
        (split; [reflexivity|]); [now left|now right]. }
    split; [assumption|]. split; [reflexivity|].
    split; [intros Hfresh; f_equal; apply Hnothing; congruence|].
    split; [exact Hkept|].
    exact (memoize_Map_hit w getVideoInfo_Map_slot
             getVideoInfo_Map_poke_peek (getVideoInfo_fn w) getKey vid
             (poke Part000.TTL_CACHE cache st1) o Hkept).
Qed.

(** With [CACHE_TTL] 0 and no API key, in the fresh process: a lookup goes
    upstream once; [/clear-cache] then finds nothing to clear and changes
    nothing; and the same lookup is answered as before, without another
    upstream call. *)
Lemma Part000_lookup_outlives_clear_cache :
  Part000.getVideoInfo Sample.w 0 (fun vid => vid) "live"
    (Part000.initial_state 0)
  = (Returns (Some "https://m.example/live.m3u8"),
     mkState (LruCache.new 0) (TtlCache.new 0) []
       [("live", Returns (Some "https://m.example/live.m3u8"))] []
       [GotInfo "live" (Returns (Some "https://m.example/live.m3u8"))])
  /\ Part000.clear_cache_endpoint Sample.w None
       (Part000.mkRequest None None [])
       (snd (Part000.getVideoInfo Sample.w 0 (fun vid => vid) "live"
               (Part000.initial_state 0)))
     = (Returns Part000.nothing_to_clear,
        snd (Part000.getVideoInfo Sample.w 0 (fun vid => vid) "live"
               (Part000.initial_state 0)))
  /\ Part000.getVideoInfo Sample.w 0 (fun vid => vid) "live"
       (snd (Part000.getVideoInfo Sample.w 0 (fun vid => vid) "live"
               (Part000.initial_state 0)))
     = (Returns (Some "https://m.example/live.m3u8"),
        snd (Part000.getVideoInfo Sample.w 0 (fun vid => vid) "live"
               (Part000.initial_state 0))).
Proof.
  split; [vm_compute; reflexivity|].
  split; vm_compute; reflexivity.
Qed.

(** ** The further theorems at concrete inputs *)

Module MoreWitnesses.

Import Sample.

Lemma parse_params_segments_witness :
  is_Some (param_type "v")
  /\ parse_params ([("t", "1")] ++ ("v", "abc") :: [("x", "http://u")])
     = parse_params [("t", "1")]
       ++ parse_params (("v", "abc") :: [("x", "http://u")]).
Proof.
  assert (Hkey : is_Some (param_type "v")) by (exists v; reflexivity).
  split; [exact Hkey|].
  exact (parse_params_segments [("t", "1")] "v" "abc" [("x", "http://u")]
           Hkey).
Defined.

Lemma parse_params_rejoins_witness :
  param_type "x" = Some x
  /\ Forall (fun kv : string * string => param_type (fst kv) = None)
            [("b", "2"); ("d", "3")]
  /\ parse_params ([("v", "abc")]
                   ++ ("x", "http://u/p?a=1") :: [("b", "2"); ("d", "3")])
     = parse_params [("v", "abc")]
       ++ [mkParam x ("http://u/p?a=1" +:+ fragments [("b", "2"); ("d", "3")])].
Proof.
  assert (Hkey : param_type "x" = Some x) by reflexivity.
  assert (Hstray : Forall (fun kv : string * string =>
                             param_type (fst kv) = None)
                          [("b", "2"); ("d", "3")])
    by (repeat constructor).
  split; [exact Hkey|]. split; [exact Hstray|].
  exact (parse_params_rejoins [("v", "abc")] "x" "http://u/p?a=1" x
           [("b", "2"); ("d", "3")] Hkey Hstray).
Defined.

Lemma malformed_instruction_is_skipped_witness :
  Forall (free_of ",") (["a:b"] ++ "junk" :: ["d:e"])
  /\ malformed "junk"
  /\ add_custom_headers (∅ : gmap string string)
       (JS.join "," (["a:b"] ++ "junk" :: ["d:e"]))
     = fold_left add_custom_header (["a:b"] ++ ["d:e"]) ∅.
Proof.
  assert (Hitems : Forall (free_of ",") (["a:b"] ++ "junk" :: ["d:e"]))
    by (repeat constructor; discriminate).
  assert (Hjunk : malformed "junk")
    by (left; repeat split; discriminate).
  split; [exact Hitems|]. split; [exact Hjunk|].
  exact (malformed_instruction_is_skipped ∅ ["a:b"] "junk" ["d:e"]
           Hitems Hjunk).
Defined.

Lemma later_instruction_wins_witness :
  Forall well_formed_pair ([("a", "1")] ++ ("a", "2") :: [("d", "e")])
  /\ ~ In "a" (map fst [("d", "e")])
  /\ searchParams_get (customHeaderKey cfg)
       (searchParams (mkURL "http://h/p" [("custom-header", "a:1,a:2,d:e")] ""))
     = Some (header_instructions
               ([("a", "1")] ++ ("a", "2") :: [("d", "e")]))
  /\ request_headers cfg
       (mkURL "http://h/p" [("custom-header", "a:1,a:2,d:e")] "") !! "a"
     = Some "2".
Proof.
  assert (Hwf : Forall well_formed_pair
                  ([("a", "1")] ++ ("a", "2") :: [("d", "e")]))
    by (repeat constructor; discriminate).
  assert (Hlast : ~ In "a" (map fst [("d", "e")]))
    by (intros [Heq|[]]; discriminate Heq).
  assert (Hget : searchParams_get (customHeaderKey cfg)
                   (searchParams
                      (mkURL "http://h/p"
                         [("custom-header", "a:1,a:2,d:e")] ""))
                 = Some (header_instructions
                           ([("a", "1")] ++ ("a", "2") :: [("d", "e")])))
    by reflexivity.
  split; [exact Hwf|]. split; [exact Hlast|]. split; [exact Hget|].
  exact (later_instruction_wins cfg _ [("a", "1")] "a" "2" [("d", "e")]
           Hwf Hlast Hget).
Defined.

Lemma clear_cache_twice_witness :
  Part000.hasAccess_clear (Some "K")
    (Part000.mkRequest (Some "Bearer KX") None []) = true
  /\ Part000.hasAccess_clear (Some "K")
       (Part000.mkRequest None (Some "curl KX") []) = true
  /\ TtlCache.entries
       (snd (Part000.clear_cache (Some "K")
               (Part000.mkRequest (Some "Bearer KX") None []) 0
               (TtlCache.mk 60000 [("k", (7%nat, 100))])))
     = []
  /\ Part000.clear_cache (Some "K")
       (Part000.mkRequest None (Some "curl KX") []) 5
       (snd (Part000.clear_cache (Some "K")
               (Part000.mkRequest (Some "Bearer KX") None []) 0
               (TtlCache.mk 60000 [("k", (7%nat, 100))])))
     = (Part000.nothing_to_clear,
        snd (Part000.clear_cache (Some "K")
               (Part000.mkRequest (Some "Bearer KX") None []) 0
               (TtlCache.mk 60000 [("k", (7%nat, 100))]))).
Proof.
  assert (Hfirst : Part000.hasAccess_clear (Some "K")
                     (Part000.mkRequest (Some "Bearer KX") None []) = true)
    by reflexivity.
  assert (Hsecond : Part000.hasAccess_clear (Some "K")
                      (Part000.mkRequest None (Some "curl KX") []) = true)
    by reflexivity.
  split; [exact Hfirst|]. split; [exact Hsecond|].
  exact (clear_cache_twice (Some "K") _ _ 0 5
           (TtlCache.mk 60000 [("k", (7%nat, 100))]) Hfirst Hsecond).
Defined.

Lemma switched_off_cache_remembers_witness :
  USE_CACHE (mkConfig 0 0 None "UA") = false
  /\ validateStream w (mkConfig 0 0 None "UA") "http://u"
       (snd (validateStream w (mkConfig 0 0 None "UA") "http://u"
               (initial_state (mkConfig 0 0 None "UA"))))
     = validateStream w (mkConfig 0 0 None "UA") "http://u"
         (initial_state (mkConfig 0 0 None "UA"))
  /\ getVideoInfo w (mkConfig 0 0 None "UA") "http://u"
       (snd (getVideoInfo w (mkConfig 0 0 None "UA") "http://u"
               (initial_state (mkConfig 0 0 None "UA"))))
     = getVideoInfo w (mkConfig 0 0 None "UA") "http://u"
         (initial_state (mkConfig 0 0 None "UA"))
  /\ getVideoId w (mkConfig 0 0 None "UA") "http://u"
       (snd (getVideoId w (mkConfig 0 0 None "UA") "http://u"
               (initial_state (mkConfig 0 0 None "UA"))))
     = getVideoId w (mkConfig 0 0 None "UA") "http://u"
         (initial_state (mkConfig 0 0 None "UA")).
Proof.
  assert (Hoff : USE_CACHE (mkConfig 0 0 None "UA") = false) by reflexivity.
  split; [exact Hoff|].
  exact (switched_off_cache_remembers w (mkConfig 0 0 None "UA") "http://u"
           (initial_state (mkConfig 0 0 None "UA")) Hoff).
Defined.

Lemma lookup_repeats_within_ttl_witness :
  USE_CACHE short = true
  /\ TtlCache.defaultTtl (VIDEO_INFO_CACHE (initial_state short))
     <= TIMEOUT_MAX
  /\ trace (snd (getVideoInfo w short "live" (initial_state short)))
     <> trace (initial_state short)
  /\ now w (trace (record_events
                     [Dispatched (mkParam v "abc"); GotInfo "abc" Throws]
                     (snd (getVideoInfo w short "live"
                             (initial_state short)))))
     < now w (trace (initial_state short))
       + TtlCache.defaultTtl (VIDEO_INFO_CACHE (initial_state short))
  /\ exists st3,
       getVideoInfo w short "live"
         (record_events [Dispatched (mkParam v "abc"); GotInfo "abc" Throws]
            (snd (getVideoInfo w short "live" (initial_state short))))
       = (fst (getVideoInfo w short "live" (initial_state short)), st3)
       /\ trace st3
          = trace (record_events
                     [Dispatched (mkParam v "abc"); GotInfo "abc" Throws]
                     (snd (getVideoInfo w short "live"
                             (initial_state short)))).
Proof.
  assert (Hon : USE_CACHE short = true) by reflexivity.
  assert (Hrange : TtlCache.defaultTtl
                     (VIDEO_INFO_CACHE (initial_state short))
                   <= TIMEOUT_MAX)
    by (vm_compute; discriminate).
  assert (Hwent : trace (snd (getVideoInfo w short "live"
                                (initial_state short)))
                  <> trace (initial_state short))
    by (vm_compute; discriminate).
  assert (Hwindow :
            now w (trace (record_events
                            [Dispatched (mkParam v "abc");
                             GotInfo "abc" Throws]
                            (snd (getVideoInfo w short "live"
                                    (initial_state short)))))
            < now w (trace (initial_state short))
              + TtlCache.defaultTtl
                  (VIDEO_INFO_CACHE (initial_state short)))
    by (vm_compute; reflexivity).
  split; [exact Hon|]. split; [exact Hrange|]. split; [exact Hwent|].
  split; [exact Hwindow|].
  exact (lookup_repeats_within_ttl w short (getVideoInfo w short) "live"
           (initial_state short)
           (record_events [Dispatched (mkParam v "abc"); GotInfo "abc" Throws]
              (snd (getVideoInfo w short "live" (initial_state short))))
           Hon (or_introl eq_refl) Hrange Hwent eq_refl Hwindow).
Defined.

Lemma manifest_entry_is_no_id_entry_witness :
  USE_CACHE cfg = true
  /\ JSMap.get ("resolve:" +:+ "live")
       (TtlCache.entries (VIDEO_INFO_CACHE st0))
     = None
  /\ exists o st2,
       getVideoId w cfg "live" (snd (getVideoInfo w cfg "live" st0))
       = (o, st2)
       /\ trace st2
          = trace (snd (getVideoInfo w cfg "live" st0))
            ++ [ResolvedURL "live"
                  (session_resolveURL w
                     (trace (snd (getVideoInfo w cfg "live" st0))) "live")].
Proof.
  assert (Hon : USE_CACHE cfg = true) by reflexivity.
  assert (Hnone : JSMap.get ("resolve:" +:+ "live")
                    (TtlCache.entries (VIDEO_INFO_CACHE st0))
                  = None)
    by reflexivity.
  split; [exact Hon|]. split; [exact Hnone|].
  exact (manifest_entry_is_no_id_entry w cfg "live" st0 Hon Hnone).
Defined.

Lemma validation_store_stays_bounded_witness :
  within_capacity (STREAM_VALIDATION_CACHE st0)
  /\ within_capacity
       (STREAM_VALIDATION_CACHE
          (snd (main_endpoint w cfg [("x", "http://u")] st0)))
  /\ LruCache.maxSize
       (STREAM_VALIDATION_CACHE
          (snd (main_endpoint w cfg [("x", "http://u")] st0)))
     = LruCache.maxSize (STREAM_VALIDATION_CACHE st0).
Proof.
  assert (Hcap : within_capacity (STREAM_VALIDATION_CACHE st0))
    by (split; [constructor|vm_compute; discriminate]).
  split; [exact Hcap|].
  exact (validation_store_stays_bounded w cfg [("x", "http://u")] st0 Hcap).
Defined.

Lemma validation_repeats_witness :
  USE_CACHE cfg = true
  /\ 1 <= LruCache.maxSize (STREAM_VALIDATION_CACHE st0)
  /\ exists st2,
       validateStream late cfg "http://u"
         (snd (validateStream late cfg "http://u" st0))
       = (fst (validateStream late cfg "http://u" st0), st2)
       /\ trace st2 = trace (snd (validateStream late cfg "http://u" st0)).
Proof.
  assert (Hon : USE_CACHE cfg = true) by reflexivity.
  assert (Hroom : 1 <= LruCache.maxSize (STREAM_VALIDATION_CACHE st0))
    by (vm_compute; discriminate).
  split; [exact Hon|]. split; [exact Hroom|].
  exact (validation_repeats late cfg "http://u" st0 Hon Hroom).
Defined.

Lemma validation_without_room_witness :
  USE_CACHE (mkConfig 0 100000 None "UA") = true
  /\ LruCache.maxSize
       (STREAM_VALIDATION_CACHE (initial_state (mkConfig 0 100000 None "UA")))
     <= 0
  /\ LruCache.entries
       (STREAM_VALIDATION_CACHE (initial_state (mkConfig 0 100000 None "UA")))
     = []
  /\ exists r st1 evs,
       validateStream w (mkConfig 0 100000 None "UA") "http://u"
         (initial_state (mkConfig 0 100000 None "UA"))
       = (Returns r, st1)
       /\ trace st1
          = trace (initial_state (mkConfig 0 100000 None "UA")) ++ evs
       /\ validation w (mkConfig 0 100000 None "UA") "http://u"
            (trace (initial_state (mkConfig 0 100000 None "UA"))) r evs
       /\ LruCache.maxSize (STREAM_VALIDATION_CACHE st1)
          = LruCache.maxSize
              (STREAM_VALIDATION_CACHE
                 (initial_state (mkConfig 0 100000 None "UA")))
       /\ LruCache.entries (STREAM_VALIDATION_CACHE st1) = [].
Proof.
  assert (Hon : USE_CACHE (mkConfig 0 100000 None "UA") = true)
    by reflexivity.
  assert (Hmax : LruCache.maxSize
                   (STREAM_VALIDATION_CACHE
                      (initial_state (mkConfig 0 100000 None "UA")))
                 <= 0)
    by (vm_compute; discriminate).
  assert (Hempty : LruCache.entries
                     (STREAM_VALIDATION_CACHE
                        (initial_state (mkConfig 0 100000 None "UA")))
                   = [])
    by reflexivity.
  split; [exact Hon|]. split; [exact Hmax|]. split; [exact Hempty|].
  exact (validation_without_room w (mkConfig 0 100000 None "UA") "http://u"
           (initial_state (mkConfig 0 100000 None "UA")) Hon Hmax Hempty).
Defined.


Lemma clear_cache_reaches_TTL_CACHE_only_witness :
  Part000.hasAccess_clear None (Part000.mkRequest None None []) = true
  /\ let '(o, st1) :=
       Part000.getVideoInfo w 0 (fun vid => vid) "live"
         (Part000.initial_state 0) in
     let '(answer, st2) :=
       Part000.clear_cache_endpoint w None (Part000.mkRequest None None [])
         st1 in
     (exists json,
        answer = Returns json
        /\ Part000.status json = 200
        /\ Part000.success json = true
        /\ (json = Part000.cache_cleared
            \/ json = Part000.nothing_to_clear))
     /\ TtlCache.entries (peek Part000.TTL_CACHE st2) = []
     /\ trace st2 = trace st1
     /\ (TtlCache.entries
           (peek Part000.TTL_CACHE (Part000.initial_state 0)) = [] ->
         answer = Returns Part000.nothing_to_clear)
     /\ JSMap.get "live" (getVideoInfo_Map st2) = Some o
     /\ Part000.getVideoInfo w 0 (fun vid => vid) "live" st2 = (o, st2).
Proof.
  assert (Hacc : Part000.hasAccess_clear None
                   (Part000.mkRequest None None []) = true)
    by reflexivity.
  split; [exact Hacc|].
  exact (clear_cache_reaches_TTL_CACHE_only w 0 (fun vid => vid) None
           (Part000.mkRequest None None []) "live"
           (Part000.initial_state 0) Hacc).
Defined.

End MoreWitnesses.
